(** * Topic connection checker

    A shallow embedding of
    [autoware_debug_tools/topic_connection_checker/node.py]: the
    [TopicConnectionChecker] node, its per-topic observation store, the
    round operations ([check_topics], [finish_check], [analyze_results]) and
    the upstream tracer ([analyze_topic_connections]).

    The ROS graph (what [rclpy.node.Node] answers to the introspection
    queries) is an explicit argument of every operation that queries it; the
    node object [self] is an explicit state record threaded through the
    operations; the logger output is a field of that record. *)

From stdpp Require Import gmap strings list.
From Stdlib Require Import ZArith Ascii.

Local Open Scope list_scope.

#[local] Set Warnings "-clear-no-such-hyp".

(** ** Quality-of-service profiles ([rclpy.qos]) *)

Inductive QoSDurabilityPolicy :=
| DUR_SYSTEM_DEFAULT | DUR_TRANSIENT_LOCAL | DUR_VOLATILE | DUR_UNKNOWN.

Inductive QoSReliabilityPolicy :=
| REL_SYSTEM_DEFAULT | REL_RELIABLE | REL_BEST_EFFORT | REL_UNKNOWN.

Inductive QoSHistoryPolicy :=
| HIST_SYSTEM_DEFAULT | HIST_KEEP_LAST | HIST_KEEP_ALL | HIST_UNKNOWN.

Inductive QoSLivelinessPolicy :=
| LIV_SYSTEM_DEFAULT | LIV_AUTOMATIC | LIV_MANUAL_BY_TOPIC | LIV_UNKNOWN.

(** A [rclpy.duration.Duration], in nanoseconds. *)
Definition Duration := Z.

(** A [rclpy.time.Time], in nanoseconds. *)
Definition Time := Z.

Record QoSProfile := {
  durability : QoSDurabilityPolicy;
  reliability : QoSReliabilityPolicy;
  history : QoSHistoryPolicy;
  depth : Z;
  lifespan : Duration;
  deadline : Duration;
  liveliness : QoSLivelinessPolicy;
  liveliness_lease_duration : Duration
}.

(** ** The ROS graph, as the node's introspection calls see it *)

(** An element of [get_publishers_info_by_topic]'s result
    ([TopicEndpointInfo]), with the attributes the checker reads. *)
Record TopicEndpointInfo := {
  node_name : string;
  node_namespace : string;
  qos_profile : QoSProfile
}.

Record Graph := {
  (** [Node.get_topic_names_and_types()] *)
  get_topic_names_and_types : list (string * list string);
  (** [Node.get_publishers_info_by_topic(topic)] *)
  get_publishers_info_by_topic : string -> list TopicEndpointInfo;
  (** [Node.get_subscriber_names_and_types_by_node(name, namespace)] *)
  get_subscriber_names_and_types_by_node :
    string -> string -> list (string * list string);
  (** [importlib.import_module(name)]: the attribute names of the module, or
      [None] for an [ImportError]. *)
  import_module : string -> option (list string)
}.

(** ** The node's state *)

(** One value of the [topic_data] dictionary. *)
Record TopicData := {
  received : bool;
  publishers : list (string * string);
  last_received : option Time
}.

(** A message class obtained by [getattr(module, msg_name)]. *)
Record MsgClass := { msg_module : string; msg_name : string }.

(** What [create_subscription] was called with.  The callback is
    [lambda msg: self.topic_callback(topic, msg)], determined by the topic. *)
Record Subscription := {
  sub_msg_class : MsgClass;
  sub_topic : string;
  sub_qos : QoSProfile
}.

Inductive ImportFailure := ValueError | ImportError | AttributeError.

(** The calls to [self.get_logger()], one constructor per format string. *)
Inductive LogEntry :=
| InfoStarted
| WarnNoType (topic : string)
| ErrorImport (topic : string) (e : ImportFailure)
| WarnStuck (topic : string) (publisher : string)
| WarnUnexpected (topic : string)
| InfoNextRound (topics : list string)
| ErrorNoPublishers (node : string) (topic : string)
| DebugStatus (topic : string) (stuck : bool)
| DebugNotChecked (topic : string).

(** The exceptions that the node's code can raise and nothing in it
    catches: the [KeyError] of a dictionary lookup, the [TypeError] of
    [importlib.import_module] for a relative module name and the
    [RecursionError] of the nested rounds. *)
Inductive Exception :=
| KeyError (key : string)
| TypeError
| RecursionError.

#[global] Instance ImportFailure_eq_dec : EqDecision ImportFailure.
Proof. solve_decision. Defined.

#[global] Instance LogEntry_eq_dec : EqDecision LogEntry.
Proof. solve_decision. Defined.

#[global] Instance Exception_eq_dec : EqDecision Exception.
Proof. solve_decision. Defined.

#[global] Instance TopicData_eq_dec : EqDecision TopicData.
Proof. solve_decision. Defined.

(** A Python [dict] with string keys: the items in insertion order. *)
Definition dict (V : Type) := list (string * V).

Definition dict_get {V} (k : string) (d : dict V) : option V :=
  snd <$> List.find (fun kv => String.eqb (fst kv) k) d.

(** [d[k] = v]: an existing key keeps its place, a new key goes last. *)
Fixpoint dict_set {V} (k : string) (v : V) (d : dict V) : dict V :=
  match d with
  | [] => [(k, v)]
  | (k', v') :: d' =>
      if String.eqb k' k then (k, v) :: d' else (k', v') :: dict_set k v d'
  end.

Definition dict_mem {V} (k : string) (d : dict V) : bool :=
  bool_decide (is_Some (dict_get k d)).

Record Checker := {
  important_topics : list string;
  ignore_topics : list string;
  topic_data : dict TopicData;
  check_completed : bool;
  topics_to_check_next_round : gset string;
  checked_topics : gset string;
  reported_topics : gset string;
  default_qos_profile : QoSProfile;
  (** the subscriptions of the node, oldest first *)
  subscriptions : list Subscription;
  (** the logger's output, oldest first *)
  logged : list LogEntry
}.


(** *** Attribute updates of [self] *)

Definition emit (e : LogEntry) (st : Checker) : Checker :=
  {| important_topics := important_topics st;
     ignore_topics := ignore_topics st;
     topic_data := topic_data st;
     check_completed := check_completed st;
     topics_to_check_next_round := topics_to_check_next_round st;
     checked_topics := checked_topics st;
     reported_topics := reported_topics st;
     default_qos_profile := default_qos_profile st;
     subscriptions := subscriptions st;
     logged := logged st ++ [e] |}.

Definition set_topic_data (d : dict TopicData) (st : Checker) : Checker :=
  {| important_topics := important_topics st;
     ignore_topics := ignore_topics st;
     topic_data := d;
     check_completed := check_completed st;
     topics_to_check_next_round := topics_to_check_next_round st;
     checked_topics := checked_topics st;
     reported_topics := reported_topics st;
     default_qos_profile := default_qos_profile st;
     subscriptions := subscriptions st;
     logged := logged st |}.

Definition set_check_completed (b : bool) (st : Checker) : Checker :=
  {| important_topics := important_topics st;
     ignore_topics := ignore_topics st;
     topic_data := topic_data st;
     check_completed := b;
     topics_to_check_next_round := topics_to_check_next_round st;
     checked_topics := checked_topics st;
     reported_topics := reported_topics st;
     default_qos_profile := default_qos_profile st;
     subscriptions := subscriptions st;
     logged := logged st |}.

Definition add_checked (topic : string) (st : Checker) : Checker :=
  {| important_topics := important_topics st;
     ignore_topics := ignore_topics st;
     topic_data := topic_data st;
     check_completed := check_completed st;
     topics_to_check_next_round := topics_to_check_next_round st;
     checked_topics := checked_topics st ∪ {[topic]};
     reported_topics := reported_topics st;
     default_qos_profile := default_qos_profile st;
     subscriptions := subscriptions st;
     logged := logged st |}.

Definition add_reported (topic : string) (st : Checker) : Checker :=
  {| important_topics := important_topics st;
     ignore_topics := ignore_topics st;
     topic_data := topic_data st;
     check_completed := check_completed st;
     topics_to_check_next_round := topics_to_check_next_round st;
     checked_topics := checked_topics st;
     reported_topics := reported_topics st ∪ {[topic]};
     default_qos_profile := default_qos_profile st;
     subscriptions := subscriptions st;
     logged := logged st |}.

Definition add_next_round (topic : string) (st : Checker) : Checker :=
  {| important_topics := important_topics st;
     ignore_topics := ignore_topics st;
     topic_data := topic_data st;
     check_completed := check_completed st;
     topics_to_check_next_round := topics_to_check_next_round st ∪ {[topic]};
     checked_topics := checked_topics st;
     reported_topics := reported_topics st;
     default_qos_profile := default_qos_profile st;
     subscriptions := subscriptions st;
     logged := logged st |}.

(** [self.create_subscription(msg_class, topic, callback, qos_profile, ...)] *)
Definition create_subscription (msg_class : MsgClass) (topic : string)
    (qos : QoSProfile) (st : Checker) : Checker :=
  {| important_topics := important_topics st;
     ignore_topics := ignore_topics st;
     topic_data := topic_data st;
     check_completed := check_completed st;
     topics_to_check_next_round := topics_to_check_next_round st;
     checked_topics := checked_topics st;
     reported_topics := reported_topics st;
     default_qos_profile := default_qos_profile st;
     subscriptions := subscriptions st ++
       [{| sub_msg_class := msg_class; sub_topic := topic; sub_qos := qos |}];
     logged := logged st |}.

(** [self.important_topics = list(self.topics_to_check_next_round)] followed
    by [self.topics_to_check_next_round.clear()].  The order in which [list]
    enumerates a Python set is not specified; [elements] stands for it. *)
Definition take_next_round (st : Checker) : Checker :=
  {| important_topics := elements (topics_to_check_next_round st);
     ignore_topics := ignore_topics st;
     topic_data := topic_data st;
     check_completed := check_completed st;
     topics_to_check_next_round := ∅;
     checked_topics := checked_topics st;
     reported_topics := reported_topics st;
     default_qos_profile := default_qos_profile st;
     subscriptions := subscriptions st;
     logged := logged st |}.

(** ** [__init__] *)

Section init.
Local Open Scope string_scope.

(** The keywords [lifespan], [deadline], [liveliness] and
    [liveliness_lease_duration] are not given to the constructor of
    [default_qos_profile]: they take the values of [rclpy], the argument
    [lib]. *)
Definition init (lib : QoSProfile) : Checker :=
  {| important_topics :=
       [ "/control/command/control_cmd";
         "/control/trajectory_follower/control_cmd";
         "/control/shift_decider/gear_cmd";
         "/planning/scenario_planning/trajectory";
         "/planning/turn_indicators_cmd";
         "/planning/mission_planning/route";
         "/perception/traffic_light_recognition/traffic_signals";
         "/perception/object_recognition/objects" ];
     ignore_topics := [ "/rosout"; "/parameter_events" ];
     topic_data := [];
     check_completed := false;
     topics_to_check_next_round := ∅;
     checked_topics := ∅;
     reported_topics := ∅;
     default_qos_profile :=
       {| durability := DUR_VOLATILE;
          reliability := REL_BEST_EFFORT;
          history := HIST_KEEP_LAST;
          depth := 1;
          lifespan := lifespan lib;
          deadline := deadline lib;
          liveliness := liveliness lib;
          liveliness_lease_duration := liveliness_lease_duration lib |};
     subscriptions := [];
     logged := [InfoStarted] |}.

End init.

(** ** [get_topic_type] *)

Fixpoint first_type (names_and_types : list (string * list string))
    (topic : string) : option string :=
  match names_and_types with
  | [] => None
  | (t, types) :: rest =>
      if String.eqb t topic && negb (bool_decide (types = []))
      then head types
      else first_type rest topic
  end.

Definition get_topic_type (g : Graph) (topic : string) : option string :=
  first_type (get_topic_names_and_types g) topic.

(** ** [get_publisher_qos] *)

Definition get_publisher_qos (g : Graph) (topic : string) (st : Checker)
  : QoSProfile :=
  match get_publishers_info_by_topic g topic with
  | [] => default_qos_profile st
  | p :: _ =>
      let pub_qos := qos_profile p in
      {| durability := durability pub_qos;
         reliability := reliability pub_qos;
         history := history pub_qos;
         depth := depth pub_qos;
         lifespan := lifespan pub_qos;
         deadline := deadline pub_qos;
         liveliness := liveliness pub_qos;
         liveliness_lease_duration := liveliness_lease_duration pub_qos |}
  end.

(** ** [check_topic] *)

(** [s.split("/")] *)
Fixpoint split_slash (s : string) : list string :=
  match s with
  | EmptyString => [EmptyString]
  | String c s' =>
      if Ascii.eqb c "/"%char then EmptyString :: split_slash s'
      else match split_slash s' with
           | part :: parts => String c part :: parts
           | [] => [String c EmptyString]
           end
  end.

(** The [try] block of [check_topic], for the three exceptions it catches:
    unpacking the split into three names is a [ValueError] unless there are
    exactly three parts; the graph answers for the import of the module and
    its attributes.  A fourth exception is not caught: [import_module]
    raises a [TypeError] for a relative module name, before it asks for the
    module.  That one is [check_topic_raises] below; [import_msg_class] is
    the outcome of the block where it is not raised. *)
Definition import_msg_class (g : Graph) (msg_type : string)
  : ImportFailure + MsgClass :=
  match split_slash msg_type with
  | [package_name; _; name] =>
      match import_module g (String.append package_name ".msg") with
      | None => inl ImportError
      | Some attributes =>
          if bool_decide (name ∈ attributes)
          then inr {| msg_module := String.append package_name ".msg"; msg_name := name |}
          else inl AttributeError
      end
  | _ => inl ValueError
  end.

(** Both early returns of [check_topic] in one place: the message class of
    the topic, or the log entry of the failure.  [not msg_type] holds for
    [None] and for the empty string. *)
Definition resolve_msg_class (g : Graph) (topic : string)
  : LogEntry + MsgClass :=
  match get_topic_type g topic with
  | None => inl (WarnNoType topic)
  | Some msg_type =>
      if bool_decide (msg_type = EmptyString) then inl (WarnNoType topic)
      else match import_msg_class g msg_type with
           | inl e => inl (ErrorImport topic e)
           | inr msg_class => inr msg_class
           end
  end.

(** [importlib.import_module(name)] without a package raises a [TypeError]
    when [name] starts with a dot; here [name] is the package name followed
    by [.msg]. *)
Definition relative_module (package_name : string) : bool :=
  match package_name with
  | EmptyString => true
  | String c _ => Ascii.eqb c "."%char
  end.

(** The exception that leaves [check_topic]: the type is found, it has three
    parts, and the module name is relative.  Nothing is written before it:
    the import comes before line 90. *)
Definition check_topic_raises (g : Graph) (topic : string) : option Exception :=
  match get_topic_type g topic with
  | None => None
  | Some msg_type =>
      if bool_decide (msg_type = EmptyString) then None
      else match split_slash msg_type with
           | [package_name; _; _] =>
               if relative_module package_name then Some TypeError else None
           | _ => None
           end
  end.

Definition fresh_topic_data : TopicData :=
  {| received := false; publishers := []; last_received := None |}.

Definition check_topic (g : Graph) (topic : string) (st : Checker) : Checker :=
  match resolve_msg_class g topic with
  | inl failure => emit failure st
  | inr msg_class =>
      let st := set_topic_data (dict_set topic fresh_topic_data (topic_data st)) st in
      let qos_profile := get_publisher_qos g topic st in
      create_subscription msg_class topic qos_profile st
  end.

(** ** [check_topics], up to [self.check_completed.wait()] *)

(** [check_topic] and [check_topics_begin] are the call and the pass that no
    exception leaves; [check_topics_loop] is the loop with the [TypeError]
    of [check_topic_raises], which ends it where it is raised. *)

Definition check_topics_step (g : Graph) (st : Checker) (topic : string)
  : Checker :=
  if bool_decide (topic ∉ checked_topics st)
  then add_checked topic (check_topic g topic st)
  else st.

Definition check_topics_begin (g : Graph) (st : Checker) : Checker :=
  fold_left (check_topics_step g) (important_topics st)
            (set_check_completed false st).

(** The loop of lines 60 to 63 with the exception that can leave it: the
    topic at which [check_topic] raises is not added to [checked_topics],
    and the topics after it are not looked at. *)
Fixpoint check_topics_loop (g : Graph) (topics : list string) (st : Checker)
  : Checker * option Exception :=
  match topics with
  | [] => (st, None)
  | topic :: rest =>
      if bool_decide (topic ∉ checked_topics st)
      then match check_topic_raises g topic with
           | Some e => (st, Some e)
           | None =>
               check_topics_loop g rest (add_checked topic (check_topic g topic st))
           end
      else check_topics_loop g rest st
  end.

Definition check_topics_pass (g : Graph) (st : Checker)
  : Checker * option Exception :=
  check_topics_loop g (important_topics st) (set_check_completed false st).

(** ** [topic_callback] *)

(** The two statements of the callback, lines 126 and 127.  Each looks the
    topic up in [topic_data]. *)
Definition topic_callback_received (topic : string) (st : Checker)
  : Checker * option Exception :=
  match dict_get topic (topic_data st) with
  | None => (st, Some (KeyError topic))
  | Some data =>
      (set_topic_data
         (dict_set topic
            {| received := true;
               publishers := publishers data;
               last_received := last_received data |}
            (topic_data st)) st,
       None)
  end.

Definition topic_callback_last_received (topic : string) (now : Time)
    (st : Checker) : Checker * option Exception :=
  match dict_get topic (topic_data st) with
  | None => (st, Some (KeyError topic))
  | Some data =>
      (set_topic_data
         (dict_set topic
            {| received := received data;
               publishers := publishers data;
               last_received := Some now |}
            (topic_data st)) st,
       None)
  end.

(** The callback from the taking of the lock to its release: what the two
    statements do one after the other (lemma [topic_callback_lines]).
    [self.topic_data[topic]] of a topic without an entry is a [KeyError]. *)
Definition topic_callback (topic : string) (now : Time) (st : Checker)
  : Checker * option Exception :=
  match dict_get topic (topic_data st) with
  | None => (st, Some (KeyError topic))
  | Some data =>
      (set_topic_data
         (dict_set topic
            {| received := true;
               publishers := publishers data;
               last_received := Some now |}
            (topic_data st)) st,
       None)
  end.

(** ** [finish_check] *)

Fixpoint finish_check_loop (g : Graph) (topics : list string) (st : Checker)
  : Checker * option Exception :=
  match topics with
  | [] => (st, None)
  | topic :: rest =>
      let publishers_info := get_publishers_info_by_topic g topic in
      match dict_get topic (topic_data st) with
      | None => (st, Some (KeyError topic))
      | Some data =>
          finish_check_loop g rest
            (set_topic_data
               (dict_set topic
                  {| received := received data;
                     publishers :=
                       map (fun p => (node_name p, node_namespace p))
                           publishers_info;
                     last_received := last_received data |}
                  (topic_data st)) st)
      end
  end.

(** [self.check_completed.set()] is reached only when the loop did not
    raise. *)
Definition finish_check (g : Graph) (st : Checker)
  : Checker * option Exception :=
  match finish_check_loop g (important_topics st) st with
  | (st', None) => (set_check_completed true st', None)
  | (st', Some e) => (st', Some e)
  end.

(** ** [analyze_topic_connections] *)

(** Lines 198 to 203: the topic is tracked, or it was never checked. *)
Definition note_subscribed_topic (topic : string) (st : Checker) : Checker :=
  match dict_get topic (topic_data st) with
  | Some data => emit (DebugStatus topic (negb (received data))) st
  | None =>
      if bool_decide (topic ∉ checked_topics st)
      then add_next_round topic (emit (DebugNotChecked topic) st)
      else st
  end.

(** The body of the inner loop, for one subscription of the node. *)
Definition trace_subscription (g : Graph) (name : string) (st : Checker)
    (subscription : string * list string) : Checker :=
  let topic := fst subscription in
  if bool_decide (topic ∈ ignore_topics st) then st
  else
    let publishers_info := get_publishers_info_by_topic g topic in
    if bool_decide (length publishers_info = 0)
    then note_subscribed_topic topic (emit (ErrorNoPublishers name topic) st)
    else if bool_decide (2 < length publishers_info) then st
    else note_subscribed_topic topic st.

(** The body of the outer loop, for one publisher of the stuck topic. *)
Definition trace_publisher (g : Graph) (st : Checker)
    (publisher : string * string) : Checker :=
  let '(name, namespace) := publisher in
  fold_left (trace_subscription g name)
            (get_subscriber_names_and_types_by_node g name namespace) st.

Definition analyze_topic_connections (g : Graph) (stuck_topic : string)
    (st : Checker) : Checker * option Exception :=
  match dict_get stuck_topic (topic_data st) with
  | None => (st, Some (KeyError stuck_topic))
  | Some data => (fold_left (trace_publisher g) (publishers data) st, None)
  end.

(** ** [analyze_results] *)

(** [data['publishers'][0][0]]; it is evaluated only where the list has one
    element. *)
Definition first_publisher_name (pubs : list (string * string)) : string :=
  match pubs with
  | (name, _) :: _ => name
  | [] => EmptyString
  end.

(** The body of the first loop, for one item of [topic_data]. *)
Definition classify (acc : list string * Checker) (item : string * TopicData)
  : list string * Checker :=
  let '(stuck_topics, st) := acc in
  let '(topic, data) := item in
  if negb (received data) then
    if bool_decide (topic ∉ ignore_topics st)
       && bool_decide (length (publishers data) = 1)
       && bool_decide (topic ∉ reported_topics st)
    then (stuck_topics ++ [topic],
          add_reported topic
            (emit (WarnStuck topic (first_publisher_name (publishers data))) st))
    else (stuck_topics, st)
  else if bool_decide (is_Some (last_received data)) then (stuck_topics, st)
  else (stuck_topics, emit (WarnUnexpected topic) st).

(** The first loop: the items are those of [topic_data] when it starts (the
    loop does not change the dictionary). *)
Definition classify_all (st : Checker) : list string * Checker :=
  fold_left classify (topic_data st) ([], st).

(** The second loop. *)
Fixpoint trace_all (g : Graph) (stuck_topics : list string) (st : Checker)
  : Checker * option Exception :=
  match stuck_topics with
  | [] => (st, None)
  | topic :: rest =>
      match analyze_topic_connections g topic st with
      | (st', None) => trace_all g rest st'
      | (st', Some e) => (st', Some e)
      end
  end.

(** What [analyze_results] does next. *)
Inductive Next :=
| Return                       (** the method returns *)
| NextRound                    (** it calls [self.check_topics()] *)
| Raise (e : Exception).       (** an exception leaves it *)

(** [analyze_results] up to its call of [self.check_topics()], which is
    the caller's to make (see [check_topics]). *)
Definition analyze_results (g : Graph) (st : Checker) : Checker * Next :=
  let '(stuck_topics, st) := classify_all st in
  match trace_all g stuck_topics st with
  | (st, Some e) => (st, Raise e)
  | (st, None) =>
      if bool_decide (topics_to_check_next_round st ≠ ∅)
      then (take_next_round
              (emit (InfoNextRound (elements (topics_to_check_next_round st))) st),
            NextRound)
      else (st, Return)
  end.

(** ** Message delivery *)

(** The executor calls the callback of a subscription; a topic the node
    has no subscription on has no callback to call. *)
Definition subscribed (topic : string) (st : Checker) : bool :=
  bool_decide (topic ∈ sub_topic <$> subscriptions st).

Definition deliver (st : Checker) (message : string * Time)
  : Checker * option Exception :=
  let '(topic, now) := message in
  if subscribed topic st then topic_callback topic now st else (st, None).

Fixpoint deliver_all (messages : list (string * Time)) (st : Checker)
  : Checker * option Exception :=
  match messages with
  | [] => (st, None)
  | m :: rest =>
      match deliver st m with
      | (st', None) => deliver_all rest st'
      | (st', Some e) => (st', Some e)
      end
  end.

(** ** [check_topics]: the rounds *)

(** [check_topics] arms the timer and waits for [check_completed]; the timer
    callback is [finish_check].  The timer itself is not part of the state:
    in a round it fires once, after the messages of the round. *)

(** What the node meets in one round: the graph while it subscribes, the
    messages delivered during the observation window, the graph when the
    timer fires and the graph when the results are analysed.  Callbacks are
    taken one after the other, between the steps of the orchestration
    thread. *)
Record Round := {
  at_check : Graph;
  arrivals : list (string * Time);
  at_finish : Graph;
  at_analyze : Graph
}.

Inductive Outcome :=
| Returned                 (** [check_topics] returns *)
| Blocked (e : Exception)  (** a callback raised: [check_completed] is never
                               set and [wait()] does not return *)
| Raised (e : Exception)   (** an exception leaves [check_topics] *)
| Unfinished.              (** another round is due, none is described *)

(** The last lines of [analyze_results]: it returns, or it calls
    [self.check_topics()], here [again]. *)
Definition resume (again : Checker → Checker * Outcome)
    (result : Checker * Next) : Checker * Outcome :=
  match result with
  | (st, Return) => (st, Returned)
  | (st, Raise e) => (st, Raised e)
  | (st, NextRound) => again st
  end.

(** [check_topics] with the recursion through [analyze_results]; one
    element of [rounds] is used per round.  A round runs inside the call of
    line 177 of the round before it, two frames deeper: [nesting] is the
    number of further rounds that the interpreter's stack has room for, and
    the call that exceeds it raises [RecursionError].  (Where exactly the
    interpreter gives up depends on the frames of the calls made inside a
    round; the model gives up at the call of line 177.)  The [TypeError] of
    the subscribing loop leaves [check_topics] as well. *)
Fixpoint check_topics (nesting : nat) (rounds : list Round) (st : Checker)
    {struct rounds} : Checker * Outcome :=
  match rounds with
  | [] => (st, Unfinished)
  | r :: rest =>
      match check_topics_pass (at_check r) st with
      | (st0, Some e) => (st0, Raised e)
      | (st0, None) =>
          match deliver_all (arrivals r) st0 with
          | (st1, Some e) => (st1, Blocked e)
          | (st1, None) =>
              match finish_check (at_finish r) st1 with
              | (st2, Some e) => (st2, Blocked e)
              | (st2, None) =>
                  resume
                    (match nesting with
                     | 0 => λ st3, (st3, Raised RecursionError)
                     | S nesting' => check_topics nesting' rest
                     end)
                    (analyze_results (at_analyze r) st2)
              end
          end
      end
  end.

(** ** The operations, one at a time *)

(** The steps that change the node's state, in any order and against any
    graph: the subscribing part of [check_topics] (a pass that no
    [TypeError] ends), the delivery of a message (the callback from the
    taking of the lock to its release), the timer callback and the
    analysis.  The state after a step that raises is the state the exception
    leaves behind.  The steps at the grain of the callback's two statements
    are [Step] below. *)
Inductive Op :=
| OpCheckTopics (g : Graph)
| OpMessage (topic : string) (now : Time)
| OpFinishCheck (g : Graph)
| OpAnalyzeResults (g : Graph).

Definition exec (st : Checker) (op : Op) : Checker :=
  match op with
  | OpCheckTopics g => check_topics_begin g st
  | OpMessage topic now => fst (deliver st (topic, now))
  | OpFinishCheck g => fst (finish_check g st)
  | OpAnalyzeResults g => fst (analyze_results g st)
  end.

Definition run (ops : list Op) (st : Checker) : Checker :=
  fold_left exec ops st.

(** ** The callback, statement by statement *)

(** The node with [self.lock]: [lock] is the topic of the callback that has
    run line 126 and not yet line 127, if there is one. *)
Record Threads := {
  node : Checker;
  lock : option string
}.

(** The orchestration thread runs [check_topics] and [analyze_results]
    without the lock, also while a callback holds it.  A message callback
    and the timer callback take the lock: they wait while it is held.  (The
    timer callback takes it once per topic; its writes are to [publishers]
    only, and it is taken as a whole here, when the lock is free.)  A run of
    [analyze_results] is one step: it reads the observations as they are
    when it runs, between the statements of a callback if one holds the
    lock. *)
Inductive Step :=
| StepOp (op : Op)
| StepReceived (topic : string)
| StepLastReceived (now : Time).

Definition step (th : Threads) (s : Step) : Threads :=
  match s with
  | StepOp (OpCheckTopics g) =>
      {| node := check_topics_begin g (node th); lock := lock th |}
  | StepOp (OpAnalyzeResults g) =>
      {| node := fst (analyze_results g (node th)); lock := lock th |}
  | StepOp op =>
      match lock th with
      | None => {| node := exec (node th) op; lock := None |}
      | Some _ => th
      end
  | StepReceived topic =>
      match lock th with
      | None =>
          if subscribed topic (node th)
          then match topic_callback_received topic (node th) with
               | (st, None) => {| node := st; lock := Some topic |}
               | (st, Some _) => {| node := st; lock := None |}
               end
          else th
      | Some _ => th
      end
  | StepLastReceived now =>
      match lock th with
      | Some topic =>
          {| node := fst (topic_callback_last_received topic now (node th));
             lock := None |}
      | None => th
      end
  end.

Definition steps (l : list Step) (th : Threads) : Threads :=
  fold_left step l th.

Definition start (lib : QoSProfile) : Threads :=
  {| node := init lib; lock := None |}.

(** ** Scenarios *)

Module Scenario.
Local Open Scope string_scope.

Definition lib : QoSProfile :=
  {| durability := DUR_SYSTEM_DEFAULT; reliability := REL_SYSTEM_DEFAULT;
     history := HIST_SYSTEM_DEFAULT; depth := 0; lifespan := 0%Z;
     deadline := 0%Z; liveliness := LIV_SYSTEM_DEFAULT;
     liveliness_lease_duration := 0%Z |}.

Definition reliable : QoSProfile :=
  {| durability := DUR_TRANSIENT_LOCAL; reliability := REL_RELIABLE;
     history := HIST_KEEP_LAST; depth := 10; lifespan := 0%Z;
     deadline := 0%Z; liveliness := LIV_AUTOMATIC;
     liveliness_lease_duration := 0%Z |}.

Definition N1 : TopicEndpointInfo :=
  {| node_name := "N1"; node_namespace := "/"; qos_profile := reliable |}.

Definition control_cmd : string := "/control/command/control_cmd".

(** Every topic has the type [std_msgs/msg/String], which imports; node
    [N1] is the only publisher, on [control_cmd], and it subscribes to [/b],
    which nobody publishes. *)
Definition typed (topics : list string) : list (string * list string) :=
  map (fun t => (t, ["std_msgs/msg/String"])) topics.

Definition g_b : Graph :=
  {| get_topic_names_and_types := typed ("/b" :: important_topics (init lib));
     get_publishers_info_by_topic :=
       fun topic => if String.eqb topic control_cmd then [N1] else [];
     get_subscriber_names_and_types_by_node :=
       fun name namespace =>
         if String.eqb name "N1" && String.eqb namespace "/"
         then [("/b", ["std_msgs/msg/String"])] else [];
     import_module :=
       fun name => if String.eqb name "std_msgs.msg" then Some ["String"] else None |}.

(** The same graph with no type known for [control_cmd]. *)
Definition g_untyped : Graph :=
  {| get_topic_names_and_types := typed (tail (important_topics (init lib)));
     get_publishers_info_by_topic := get_publishers_info_by_topic g_b;
     get_subscriber_names_and_types_by_node :=
       get_subscriber_names_and_types_by_node g_b;
     import_module := import_module g_b |}.

(** The graph [g_b] where [N1] also subscribes to [/tf], which three nodes
    publish. *)
Definition g_fan : Graph :=
  {| get_topic_names_and_types := get_topic_names_and_types g_b;
     get_publishers_info_by_topic :=
       fun topic =>
         if String.eqb topic "/tf"
         then [ {| node_name := "N2"; node_namespace := "/"; qos_profile := reliable |};
                {| node_name := "N3"; node_namespace := "/"; qos_profile := reliable |};
                {| node_name := "N4"; node_namespace := "/"; qos_profile := reliable |} ]
         else get_publishers_info_by_topic g_b topic;
     get_subscriber_names_and_types_by_node :=
       fun name namespace =>
         if String.eqb name "N1" && String.eqb namespace "/"
         then [("/tf", ["tf2_msgs/msg/TFMessage"]); ("/b", ["std_msgs/msg/String"])]
         else [];
     import_module := import_module g_b |}.

(** Every important topic has a type and nobody publishes anything. *)
Definition g_silent : Graph :=
  {| get_topic_names_and_types := get_topic_names_and_types g_b;
     get_publishers_info_by_topic := fun _ => [];
     get_subscriber_names_and_types_by_node := fun _ _ => [];
     import_module := import_module g_b |}.

(** A round in which the graph does not change and no message arrives. *)
Definition quiet (g : Graph) : Round :=
  {| at_check := g; arrivals := []; at_finish := g; at_analyze := g |}.

(** The state when the timer of the first round has fired, in graph [g]. *)
Abbreviation observed g :=
  (run [OpCheckTopics g; OpFinishCheck g] (init lib)) (only parsing).

Definition silent_once : TopicData :=
  {| received := false; publishers := [("N1", "/")]; last_received := None |}.

Definition String_class : MsgClass :=
  {| msg_module := "std_msgs.msg"; msg_name := "String" |}.

Definition turn_indicators : string := "/planning/turn_indicators_cmd".

(** The node with another list of ignored topics. *)
Definition ignoring (topics : list string) (st : Checker) : Checker :=
  {| important_topics := important_topics st;
     ignore_topics := topics;
     topic_data := topic_data st;
     check_completed := check_completed st;
     topics_to_check_next_round := topics_to_check_next_round st;
     checked_topics := checked_topics st;
     reported_topics := reported_topics st;
     default_qos_profile := default_qos_profile st;
     subscriptions := subscriptions st;
     logged := logged st |}.

(** The state [observed g_b] of a node that ignores [control_cmd]: the
    topic is tracked, has one publisher, no message, and is ignored. *)
Abbreviation ignored_cmd :=
  (ignoring [control_cmd] (run [OpCheckTopics g_b; OpFinishCheck g_b] (init lib)))
  (only parsing).

(** The graph [g_b] where the type of [control_cmd] has an empty package
    name, which [importlib] takes for a relative import. *)
Definition g_relative : Graph :=
  {| get_topic_names_and_types :=
       (control_cmd, ["/msg/String"]) :: get_topic_names_and_types g_b;
     get_publishers_info_by_topic := get_publishers_info_by_topic g_b;
     get_subscriber_names_and_types_by_node :=
       get_subscriber_names_and_types_by_node g_b;
     import_module := import_module g_b |}.

End Scenario.


(** * The vocabulary of the properties *)

(** ** The invariant of the node's state *)

(** The two fields of an observation that the message callback writes agree. *)
Definition consistent (data : TopicData) : Prop :=
  received data = true ↔ is_Some (last_received data).

(** The entry is the warning of line 156 about [topic]. *)
Definition is_stuck_warning (topic : string) (e : LogEntry) : bool :=
  match e with
  | WarnStuck t _ => bool_decide (t = topic)
  | _ => false
  end.

(** How many times the log warns that [topic] is stuck. *)
Definition stuck_warnings (topic : string) (l : list LogEntry) : nat :=
  length (List.filter (is_stuck_warning topic) l).

(** What holds of the node's state between any two operations: the keys of
    [topic_data] are distinct, they are the topics the node has a
    subscription on, they are in [checked_topics], and they include
    [reported_topics]; every observation is [consistent]; the log has no
    unexpected-state warning, and one stuck warning per reported topic. *)
Record Inv (st : Checker) : Prop := {
  inv_nodup : NoDup (topic_data st).*1;
  inv_subscribed :
    ∀ t, t ∈ (topic_data st).*1 ↔ t ∈ sub_topic <$> subscriptions st;
  inv_checked : ∀ t, t ∈ (topic_data st).*1 → t ∈ checked_topics st;
  inv_reported : ∀ t, t ∈ reported_topics st → t ∈ (topic_data st).*1;
  inv_consistent : ∀ t data, (t, data) ∈ topic_data st → consistent data;
  inv_expected : ∀ t, WarnUnexpected t ∉ logged st;
  inv_warned :
    ∀ t, stuck_warnings t (logged st)
         = if decide (t ∈ reported_topics st) then 1 else 0
}.

(** ** What the tracer may change *)

(** The test of lines 188 to 203 under which a subscribed topic enters
    [topics_to_check_next_round]. *)
Definition expandable (g : Graph) (st : Checker) (t : string) : Prop :=
  (t ∉ ignore_topics st)
  ∧ (length (get_publishers_info_by_topic g t) ≤ 2)
  ∧ (t ∉ (topic_data st).*1)
  ∧ (t ∉ checked_topics st).

(** The entries the tracer writes, with the facts they are written under. *)
Definition tracing_entry (g : Graph) (st : Checker) (e : LogEntry) : Prop :=
  match e with
  | ErrorNoPublishers _ t =>
      (t ∉ ignore_topics st) ∧ (length (get_publishers_info_by_topic g t) = 0)
  | DebugStatus t stuck =>
      (t ∉ ignore_topics st)
      ∧ (length (get_publishers_info_by_topic g t) ≤ 2)
      ∧ (∃ data, dict_get t (topic_data st) = Some data
                 ∧ stuck = negb (received data))
  | DebugNotChecked t => expandable g st t
  | _ => False
  end.

(** [traced g st st']: [st'] differs from [st] by tracing only: more log
    entries of the tracer, more topics for the next round. *)
Record traced (g : Graph) (st st' : Checker) : Prop := {
  tr_important : important_topics st' = important_topics st;
  tr_ignore : ignore_topics st' = ignore_topics st;
  tr_data : topic_data st' = topic_data st;
  tr_completed : check_completed st' = check_completed st;
  tr_checked : checked_topics st' = checked_topics st;
  tr_reported : reported_topics st' = reported_topics st;
  tr_qos : default_qos_profile st' = default_qos_profile st;
  tr_subscriptions : subscriptions st' = subscriptions st;
  tr_logged :
    ∃ new, logged st' = logged st ++ new ∧ ∀ e, e ∈ new → tracing_entry g st e;
  tr_kept : topics_to_check_next_round st ⊆ topics_to_check_next_round st';
  tr_added :
    ∀ t, t ∈ topics_to_check_next_round st' →
         t ∈ topics_to_check_next_round st ∨ expandable g st t
}.

(** The topic a log entry is about. *)
Definition log_topic (e : LogEntry) : option string :=
  match e with
  | InfoStarted | InfoNextRound _ => None
  | WarnNoType t | ErrorImport t _ | WarnStuck t _ | WarnUnexpected t
  | ErrorNoPublishers _ t | DebugStatus t _ | DebugNotChecked t => Some t
  end.

(** [t] is found by the tracer: a publisher of a topic that
    [analyze_results] classifies as stuck subscribes to it, and [t] passes
    the tests of lines 188 to 203. *)
Definition discovered (g : Graph) (st : Checker) (t : string) : Prop :=
  ∃ stuck_topic data name namespace types,
    stuck_topic ∈ (classify_all st).1
    ∧ dict_get stuck_topic (topic_data st) = Some data
    ∧ (name, namespace) ∈ publishers data
    ∧ (t, types) ∈ get_subscriber_names_and_types_by_node g name namespace
    ∧ (t ∉ ignore_topics st)
    ∧ length (get_publishers_info_by_topic g t) ≤ 2
    ∧ (t ∉ (topic_data st).*1)
    ∧ (t ∉ checked_topics st).

(** ** What the classification loop may change *)

(** The three outcomes of [classify] for one item. *)
Inductive classify_spec (acc : list string) (s : Checker) (t : string)
    (d : TopicData) : list string * Checker → Prop :=
| classify_stuck :
    received d = false → t ∉ ignore_topics s →
    length (publishers d) = 1 → t ∉ reported_topics s →
    classify_spec acc s t d
      (acc ++ [t],
       add_reported t (emit (WarnStuck t (first_publisher_name (publishers d))) s))
| classify_unexpected :
    received d = true → last_received d = None →
    classify_spec acc s t d (acc, emit (WarnUnexpected t) s)
| classify_skip :
    ¬ (received d = false ∧ (t ∉ ignore_topics s)
       ∧ length (publishers d) = 1 ∧ (t ∉ reported_topics s)) →
    ¬ (received d = true ∧ last_received d = None) →
    classify_spec acc s t d (acc, s).

(** [classify] changes the log and [reported_topics] only. *)
Record classified (st st' : Checker) : Prop := {
  cl_important : important_topics st' = important_topics st;
  cl_ignore : ignore_topics st' = ignore_topics st;
  cl_data : topic_data st' = topic_data st;
  cl_completed : check_completed st' = check_completed st;
  cl_frontier : topics_to_check_next_round st' = topics_to_check_next_round st;
  cl_checked : checked_topics st' = checked_topics st;
  cl_qos : default_qos_profile st' = default_qos_profile st;
  cl_subscriptions : subscriptions st' = subscriptions st;
  cl_reported : reported_topics st ⊆ reported_topics st'
}.

(** The test of lines 150 to 155, for the item of [t] in [items]. *)
Definition reportable (s : Checker) (items : dict TopicData) (t : string) : Prop :=
  ∃ d, (t, d) ∈ items ∧ received d = false ∧ (t ∉ ignore_topics s)
       ∧ length (publishers d) = 1 ∧ (t ∉ reported_topics s).

(** The state when the second loop of [analyze_results] ends. *)
Definition after_tracing (g : Graph) (st : Checker) : Checker :=
  (trace_all g (classify_all st).1 (classify_all st).2).1.

(** How often [t] occurs in a list of topics. *)
Definition occurrences (t : string) (topics : list string) : nat :=
  length (List.filter (String.eqb t) topics).

(** ** What the operations keep *)

(** [evolves st st']: the configuration is the same and the two sets of
    topics have not lost an element. *)
Record evolves (st st' : Checker) : Prop := {
  ev_ignore : ignore_topics st' = ignore_topics st;
  ev_qos : default_qos_profile st' = default_qos_profile st;
  ev_checked : checked_topics st ⊆ checked_topics st';
  ev_reported : reported_topics st ⊆ reported_topics st'
}.

(** [persists st st']: an observation of [st] is still there in [st'], and
    what it has received is not taken back. *)
Definition persists (st st' : Checker) : Prop :=
  ∀ t d, dict_get t (topic_data st) = Some d →
    ∃ d', dict_get t (topic_data st') = Some d'
          ∧ (received d = true → received d' = true)
          ∧ (is_Some (last_received d) → is_Some (last_received d')).

(** The observation of [t] with the publishers that the graph has for it. *)
Definition with_publishers (g : Graph) (t : string) (data : TopicData)
  : TopicData :=
  {| received := received data;
     publishers := map (λ p, (node_name p, node_namespace p))
                       (get_publishers_info_by_topic g t);
     last_received := last_received data |}.

(** ** Type descriptors *)

(** How many times ["/"] occurs in [s]. *)
Fixpoint count_slash (s : string) : nat :=
  match s with
  | EmptyString => 0
  | String c s' => (if Ascii.eqb c "/"%char then 1 else 0) + count_slash s'
  end.

(** The descriptor [package/middle/name]. *)
Definition descriptor (package middle name : string) : string :=
  String.append package
    (String "/"%char (String.append middle (String "/"%char name))).

(** ** The callback between its two statements *)

(** The keys of [topic_data] are distinct and in [checked_topics]. *)
Definition Core (st : Checker) : Prop :=
  NoDup (topic_data st).*1 ∧ ∀ t, t ∈ (topic_data st).*1 → t ∈ checked_topics st.

(** What holds of the observations while [lock] is the topic of the
    callback between its two statements: a time of reception comes with
    [received], and the observations of the other topics are
    [consistent]. *)
Definition observations_ok (lock : option string) (st : Checker) : Prop :=
  ∀ t data, (t, data) ∈ topic_data st →
    (is_Some (last_received data) → received data = true)
    ∧ (lock ≠ Some t → consistent data).

(** The callback that holds the lock has written [received]. *)
Definition holder_ok (lock : option string) (st : Checker) : Prop :=
  ∀ t, lock = Some t →
    ∃ data, dict_get t (topic_data st) = Some data ∧ received data = true.

Record ThreadsInv (th : Threads) : Prop := {
  ti_core : Core (node th);
  ti_observations : observations_ok (lock th) (node th);
  ti_holder : holder_ok (lock th) (node th)
}.

(** A closed, decidable statement, by evaluation. *)
Ltac by_evaluation := apply (bool_decide_unpack _); vm_compute; exact I.

(** * Properties *)

(** ** Dictionaries *)

Section dict.
Context {V : Type}.
Implicit Types (d : dict V) (k : string) (v : V).

Lemma dict_get_cons k k' v d :
  dict_get k ((k', v) :: d) = if decide (k' = k) then Some v else dict_get k d.
Proof.
  unfold dict_get. simpl.
  destruct (String.eqb_spec k' k); case_decide; done.
Qed.

Lemma dict_get_Some_elem k v d : dict_get k d = Some v → (k, v) ∈ d.
Proof.
  induction d as [|[k' v'] d IH]; [done|].
  rewrite dict_get_cons. case_decide.
  - intros [= ->]. subst. apply elem_of_cons. by left.
  - intros. apply elem_of_cons. right. by apply IH.
Qed.

Lemma dict_get_is_Some k d : is_Some (dict_get k d) ↔ k ∈ d.*1.
Proof.
  induction d as [|[k' v'] d IH].
  - split; [by intros [? ?]|]. by intros ?%elem_of_nil.
  - rewrite dict_get_cons, fmap_cons, elem_of_cons. simpl. case_decide.
    + split; [by left | by eauto].
    + rewrite IH. split; [by right|]. by intros [?|?].
Qed.

Lemma dict_get_None k d : dict_get k d = None ↔ k ∉ d.*1.
Proof. rewrite <- dict_get_is_Some, eq_None_not_Some. done. Qed.

Lemma elem_dict_get k v d : NoDup d.*1 → (k, v) ∈ d → dict_get k d = Some v.
Proof.
  induction d as [|[k' v'] d IH]; [by intros _ ?%elem_of_nil|].
  rewrite fmap_cons, NoDup_cons, elem_of_cons, dict_get_cons. simpl.
  intros [Hk Hd] [[= -> ->]|Hin].
  - by rewrite decide_True.
  - case_decide; [|by apply IH]. subst.
    destruct Hk. apply list_elem_of_fmap. by exists (k, v).
Qed.

Lemma dict_get_set k k' v d :
  dict_get k' (dict_set k v d) = if decide (k = k') then Some v else dict_get k' d.
Proof.
  induction d as [|[k0 v0] d IH]; simpl.
  - rewrite dict_get_cons. by case_decide.
  - destruct (String.eqb_spec k0 k) as [->|Hne].
    + rewrite !dict_get_cons. by case_decide.
    + rewrite !dict_get_cons, IH. repeat case_decide; congruence.
Qed.

Lemma dict_get_set_eq k v d : dict_get k (dict_set k v d) = Some v.
Proof. by rewrite dict_get_set, decide_True. Qed.

Lemma dict_get_set_ne k k' v d :
  k ≠ k' → dict_get k' (dict_set k v d) = dict_get k' d.
Proof. intros. by rewrite dict_get_set, decide_False. Qed.

Lemma elem_of_dict_set kv k v d : kv ∈ dict_set k v d → kv = (k, v) ∨ kv ∈ d.
Proof.
  induction d as [|[k0 v0] d IH]; simpl.
  - intros ?%list_elem_of_singleton. by left.
  - destruct (String.eqb_spec k0 k) as [->|Hne];
      rewrite !elem_of_cons; naive_solver.
Qed.

Lemma dict_set_keys k v d :
  (dict_set k v d).*1 = if decide (k ∈ d.*1) then d.*1 else d.*1 ++ [k].
Proof.
  induction d as [|[k0 v0] d IH].
  - case_decide as Hin; [|done]. by apply elem_of_nil in Hin.
  - cbn [dict_set]. destruct (String.eqb_spec k0 k) as [->|Hne].
    + rewrite !fmap_cons. cbn [fst].
      clear IH. case_decide as Hn; [done|].
      destruct Hn. apply elem_of_cons. by left.
    + rewrite !fmap_cons, IH. cbn [fst].
      repeat case_decide; try done.
      * exfalso. set_solver.
      * exfalso. set_solver.
Qed.

Lemma elem_of_dict_set_keys k k' v d :
  k' ∈ (dict_set k v d).*1 ↔ k' = k ∨ k' ∈ d.*1.
Proof.
  rewrite dict_set_keys. case_decide.
  - split; [by right|]. by intros [->|?].
  - rewrite elem_of_app, list_elem_of_singleton. tauto.
Qed.

Lemma dict_set_NoDup k v d : NoDup d.*1 → NoDup (dict_set k v d).*1.
Proof.
  intros Hd. rewrite dict_set_keys. case_decide; [done|].
  apply NoDup_app. split_and!; [done| |apply NoDup_singleton].
  intros x Hx ->%list_elem_of_singleton. done.
Qed.
End dict.

(** ** Loops *)

Lemma fold_left_preserves {A B} (P : A → Prop) (f : A → B → A) (l : list B) a :
  P a → (∀ a b, b ∈ l → P a → P (f a b)) → P (fold_left f l a).
Proof.
  revert a. induction l as [|b l IH]; intros a Ha Hf; [done|]. simpl.
  apply IH.
  - apply Hf; [apply elem_of_cons; by left | done].
  - intros a' b' Hb'. apply Hf. apply elem_of_cons. by right.
Qed.

(** ** The invariant of the node's state *)

Lemma stuck_warnings_app topic l1 l2 :
  stuck_warnings topic (l1 ++ l2) = stuck_warnings topic l1 + stuck_warnings topic l2.
Proof. unfold stuck_warnings. by rewrite List.filter_app, length_app. Qed.

Lemma Inv_init lib : Inv (init lib).
Proof.
  split; simpl.
  - apply NoDup_nil_2.
  - done.
  - by intros t ?%elem_of_nil.
  - by intros t ?%not_elem_of_empty.
  - by intros t data ?%elem_of_nil.
  - by intros t ?%list_elem_of_singleton.
  - intros t. rewrite decide_False; [done|]. apply not_elem_of_empty.
Qed.

Lemma Inv_emit e st :
  (∀ t, e ≠ WarnUnexpected t) → (∀ t, is_stuck_warning t e = false) →
  Inv st → Inv (emit e st).
Proof.
  intros He1 He2 []. split; simpl; try done.
  - intros t [?|Hlast%list_elem_of_singleton]%elem_of_app; [by eapply inv_expected0|].
    by eapply He1.
  - intros t. rewrite stuck_warnings_app, inv_warned0.
    unfold stuck_warnings. simpl. rewrite He2. simpl. lia.
Qed.

Lemma Inv_set_check_completed b st : Inv st → Inv (set_check_completed b st).
Proof. by intros []. Qed.

Lemma Inv_add_next_round t st : Inv st → Inv (add_next_round t st).
Proof. by intros []. Qed.

Lemma Inv_take_next_round st : Inv st → Inv (take_next_round st).
Proof. by intros []. Qed.

Lemma Inv_add_checked t st : Inv st → Inv (add_checked t st).
Proof.
  intros []. split; simpl; try done.
  intros t' ?%inv_checked0. set_solver.
Qed.

Lemma Inv_update t data st :
  t ∈ (topic_data st).*1 → consistent data →
  Inv st → Inv (set_topic_data (dict_set t data (topic_data st)) st).
Proof.
  intros Ht Hdata []. split; simpl; try done.
  - by apply dict_set_NoDup.
  - intros t'. rewrite dict_set_keys, decide_True by done. apply inv_subscribed0.
  - intros t'. rewrite dict_set_keys, decide_True by done. apply inv_checked0.
  - intros t'. rewrite dict_set_keys, decide_True by done. apply inv_reported0.
  - intros t' data' [[= -> ->]|?]%elem_of_dict_set; [done|]. by eapply inv_consistent0.
Qed.

Lemma consistent_fresh : consistent fresh_topic_data.
Proof. split; [done|]. by intros [? ?]. Qed.

Lemma Inv_subscribe msg_class qos t st :
  Inv st →
  Inv (add_checked t
         (create_subscription msg_class t qos
            (set_topic_data (dict_set t fresh_topic_data (topic_data st)) st))).
Proof.
  intros []. split; simpl; try done.
  - by apply dict_set_NoDup.
  - intros t'. rewrite fmap_app, elem_of_app, elem_of_dict_set_keys.
    rewrite inv_subscribed0. simpl. rewrite list_elem_of_singleton. tauto.
  - intros t'. rewrite elem_of_dict_set_keys, elem_of_union, elem_of_singleton.
    intros [?|?]; auto.
  - intros t' ?%inv_reported0. rewrite elem_of_dict_set_keys. by right.
  - intros t' data' [[= -> ->]|?]%elem_of_dict_set; [apply consistent_fresh|].
    by eapply inv_consistent0.
Qed.

Lemma Inv_report t name st :
  t ∈ (topic_data st).*1 → t ∉ reported_topics st →
  Inv st → Inv (add_reported t (emit (WarnStuck t name) st)).
Proof.
  intros Ht Hnew []. split; simpl; try done.
  - intros t' [?|Heq%elem_of_singleton]%elem_of_union; [by apply inv_reported0|].
    by subst.
  - intros t' [?|?%list_elem_of_singleton]%elem_of_app; [|done]. by eapply inv_expected0.
  - intros t'. rewrite stuck_warnings_app, inv_warned0.
    unfold stuck_warnings. simpl.
    destruct (decide (t = t')) as [<-|Hne].
    + rewrite bool_decide_eq_true_2 by done.
      rewrite decide_False by done. rewrite decide_True by set_solver. done.
    + rewrite bool_decide_eq_false_2 by done. simpl.
      repeat case_decide; set_solver by lia.
Qed.

(** ** What the tracer may change *)

Lemma traced_refl g st : traced g st st.
Proof.
  split; try done.
  - exists []. split; [by rewrite app_nil_r|]. by intros e ?%elem_of_nil.
  - auto.
Qed.

Lemma tracing_entry_frame g st st' e :
  traced g st st' → tracing_entry g st' e → tracing_entry g st e.
Proof.
  intros [] He. destruct e; simpl in *; try done; unfold expandable in *;
    by rewrite <- ?tr_ignore0, <- ?tr_data0, <- ?tr_checked0.
Qed.

Lemma expandable_frame g st st' t :
  traced g st st' → expandable g st' t ↔ expandable g st t.
Proof. intros []. unfold expandable. by rewrite tr_ignore0, tr_data0, tr_checked0. Qed.

Lemma traced_trans g st1 st2 st3 :
  traced g st1 st2 → traced g st2 st3 → traced g st1 st3.
Proof.
  intros H12 H23. pose proof H12 as []. pose proof H23 as [].
  split; try congruence.
  - destruct tr_logged0 as (new1 & E1 & F1), tr_logged1 as (new2 & E2 & F2).
    exists (new1 ++ new2). split; [by rewrite E2, E1, app_assoc|].
    intros e [?|?]%elem_of_app; [by apply F1|].
    eapply tracing_entry_frame; [done|]. by apply F2.
  - set_solver.
  - intros t [?|?]%tr_added1; [by apply tr_added0|].
    right. by apply (expandable_frame g st1 st2).
Qed.

Lemma traced_fold {B} g (f : Checker → B → Checker) (l : list B) st :
  (∀ s b, traced g s (f s b)) → traced g st (fold_left f l st).
Proof.
  intros Hf.
  apply (fold_left_preserves (traced g st)); [apply traced_refl|].
  intros s b _ Hs. eapply traced_trans; [done|apply Hf].
Qed.

Lemma traced_emit g e st : tracing_entry g st e → traced g st (emit e st).
Proof.
  intros He. split; try done; simpl.
  - exists [e]. split; [done|]. by intros e' ->%list_elem_of_singleton.
  - auto.
Qed.

Lemma traced_add_next_round g t st :
  expandable g st t → traced g st (add_next_round t (emit (DebugNotChecked t) st)).
Proof.
  intros Ht. split; try done; simpl.
  - exists [DebugNotChecked t]. split; [done|]. by intros e' ->%list_elem_of_singleton.
  - set_solver.
  - intros t' [?|Heq%elem_of_singleton]%elem_of_union; [by left|].
    right. by subst.
Qed.

Lemma traced_note_subscribed_topic g t st :
  t ∉ ignore_topics st → length (get_publishers_info_by_topic g t) ≤ 2 →
  traced g st (note_subscribed_topic t st).
Proof.
  intros Hi Hn. unfold note_subscribed_topic.
  destruct (dict_get t (topic_data st)) as [data|] eqn:Hget.
  - apply traced_emit. simpl. eauto.
  - case_bool_decide; [|apply traced_refl].
    apply traced_add_next_round. split_and!; try done. by apply dict_get_None.
Qed.

Lemma traced_trace_subscription g name st subscription :
  traced g st (trace_subscription g name st subscription).
Proof.
  unfold trace_subscription. case_bool_decide as Hi; [apply traced_refl|].
  case_bool_decide as H0.
  - apply (traced_trans g st (emit (ErrorNoPublishers name subscription.1) st)).
    + apply traced_emit. simpl. by split.
    + apply traced_note_subscribed_topic; [done|lia].
  - case_bool_decide; [apply traced_refl|].
    apply traced_note_subscribed_topic; [done|lia].
Qed.

Lemma traced_trace_publisher g st publisher :
  traced g st (trace_publisher g st publisher).
Proof.
  destruct publisher as [name namespace]. simpl.
  apply traced_fold. intros. apply traced_trace_subscription.
Qed.

Lemma traced_analyze_topic_connections g stuck_topic st :
  traced g st (analyze_topic_connections g stuck_topic st).1.
Proof.
  unfold analyze_topic_connections.
  destruct (dict_get _ _); [|apply traced_refl]. simpl.
  apply traced_fold. intros. apply traced_trace_publisher.
Qed.

Lemma traced_trace_all g stuck_topics st :
  traced g st (trace_all g stuck_topics st).1.
Proof.
  revert st. induction stuck_topics as [|t l IH]; intros st; [apply traced_refl|].
  simpl. pose proof (traced_analyze_topic_connections g t st) as Ht.
  destruct (analyze_topic_connections g t st) as [st' [e|]]; [done|].
  eapply traced_trans; [done|apply IH].
Qed.

Lemma tracing_entry_not_warning g st e t :
  tracing_entry g st e → e ≠ WarnUnexpected t ∧ is_stuck_warning t e = false.
Proof. by destruct e. Qed.

Lemma stuck_warnings_traced g st st' t :
  traced g st st' →
  stuck_warnings t (logged st') = stuck_warnings t (logged st).
Proof.
  intros [? ? ? ? ? ? ? ? (new & -> & Hnew) ? ?].
  rewrite stuck_warnings_app.
  assert (stuck_warnings t new = 0) as ->; [|lia].
  clear -Hnew. induction new as [|e new IH]; [done|].
  unfold stuck_warnings in *. simpl.
  destruct (tracing_entry_not_warning g st e t) as [_ ->].
  { apply Hnew, elem_of_cons. by left. }
  apply IH. intros e' ?. apply Hnew, elem_of_cons. by right.
Qed.

Lemma Inv_traced g st st' : traced g st st' → Inv st → Inv st'.
Proof.
  intros Htr Hinv. pose proof Htr as []. destruct Hinv.
  split; rewrite ?tr_data0, ?tr_subscriptions0, ?tr_checked0, ?tr_reported0;
    try done.
  - destruct tr_logged0 as (new & -> & Hnew).
    intros t [?|He]%elem_of_app; [by eapply inv_expected0|].
    apply Hnew in He. by destruct (tracing_entry_not_warning g st _ t He).
  - intros t. by rewrite (stuck_warnings_traced g st st').
Qed.

(** A lead of the tracer that is followed: whatever holds after the step
    for [x] and is kept by tracing holds after the loop. *)
Lemma traced_reaches {B} g (f : Checker → B → Checker) (l : list B) x st
    (Q : Checker → Prop) :
  x ∈ l →
  (∀ s b, traced g s (f s b)) →
  (∀ s, traced g st s → Q (f s x)) →
  (∀ s s', traced g s s' → Q s → Q s') →
  Q (fold_left f l st).
Proof.
  intros (l1 & l2 & ->)%list_elem_of_split Hf Hx Hmono.
  rewrite fold_left_app. simpl.
  eapply Hmono; [by apply traced_fold|].
  apply Hx. by apply traced_fold.
Qed.

Lemma traced_logged g st st' e : traced g st st' → e ∈ logged st → e ∈ logged st'.
Proof. intros [? ? ? ? ? ? ? ? (new & -> & _) ? ?] ?. apply elem_of_app. by left. Qed.

Lemma traced_frontier g st st' t :
  traced g st st' →
  t ∈ topics_to_check_next_round st → t ∈ topics_to_check_next_round st'.
Proof. intros [] ?. set_solver. Qed.

Lemma note_subscribed_topic_frontier t st :
  t ∉ (topic_data st).*1 → t ∉ checked_topics st →
  t ∈ topics_to_check_next_round (note_subscribed_topic t st).
Proof.
  intros Hd%dict_get_None Hc. unfold note_subscribed_topic.
  rewrite Hd, bool_decide_eq_true_2 by done. simpl. set_solver.
Qed.

Lemma trace_subscription_frontier g name st t types :
  expandable g st t →
  t ∈ topics_to_check_next_round (trace_subscription g name st (t, types)).
Proof.
  intros (Hi & Hn & Hd & Hc). unfold trace_subscription. simpl.
  rewrite bool_decide_eq_false_2 by done.
  case_bool_decide.
  - by apply note_subscribed_topic_frontier.
  - rewrite bool_decide_eq_false_2 by lia. by apply note_subscribed_topic_frontier.
Qed.

Lemma trace_subscription_error g name st t types :
  t ∉ ignore_topics st → length (get_publishers_info_by_topic g t) = 0 →
  ErrorNoPublishers name t ∈ logged (trace_subscription g name st (t, types)).
Proof.
  intros Hi Hn. unfold trace_subscription. simpl.
  rewrite bool_decide_eq_false_2, bool_decide_eq_true_2 by done.
  eapply traced_logged.
  - apply traced_note_subscribed_topic with (g := g); [done|lia].
  - simpl. apply elem_of_app. right. by apply list_elem_of_singleton.
Qed.

(** Following the lead from a publisher [(name, namespace)] of the stuck
    topic to a topic [t] that node subscribes to. *)
Lemma analyze_topic_connections_reaches g stuck_topic st data name namespace
    t types (Q : string → Checker → Prop) :
  dict_get stuck_topic (topic_data st) = Some data →
  (name, namespace) ∈ publishers data →
  (t, types) ∈ get_subscriber_names_and_types_by_node g name namespace →
  (∀ s, traced g st s → Q name (trace_subscription g name s (t, types))) →
  (∀ s s', traced g s s' → Q name s → Q name s') →
  Q name (analyze_topic_connections g stuck_topic st).1.
Proof.
  intros Hget Hpub Hsub Hstep Hmono. unfold analyze_topic_connections.
  rewrite Hget. simpl.
  apply (traced_reaches g _ _ (name, namespace)); try done.
  - apply traced_trace_publisher.
  - intros s Hs. simpl.
    apply (traced_reaches g _ _ (t, types)); try done.
    + apply traced_trace_subscription.
    + intros s' Hs'. apply Hstep. by eapply traced_trans.
Qed.

(** ** The classification loop *)

Lemma classify_specP acc s t d : classify_spec acc s t d (classify (acc, s) (t, d)).
Proof.
  unfold classify. destruct (received d) eqn:Hr; simpl.
  - case_bool_decide as Hl.
    + apply classify_skip; [intros [? _]; congruence|]. intros [_ Hn].
      rewrite Hn in Hl. by destruct Hl.
    + apply classify_unexpected; [done|]. by apply eq_None_not_Some.
  - repeat case_bool_decide; simpl;
      first [ by apply classify_stuck
            | apply classify_skip; [tauto | intros [? _]; congruence] ].
Qed.

Lemma classified_refl st : classified st st.
Proof. by split. Qed.

Lemma classified_trans st1 st2 st3 :
  classified st1 st2 → classified st2 st3 → classified st1 st3.
Proof. intros [] []. split; try congruence. set_solver. Qed.

Lemma classified_classify acc s item : classified s (classify (acc, s) item).2.
Proof.
  destruct item as [t d]. destruct (classify_specP acc s t d); simpl.
  - split; try done. simpl. set_solver.
  - by split.
  - apply classified_refl.
Qed.

Lemma classify_all_frame st :
  classified st (classify_all st).2
  ∧ (Inv st → Inv (classify_all st).2)
  ∧ ∀ t, t ∈ (classify_all st).1 → t ∈ (topic_data st).*1.
Proof.
  unfold classify_all.
  apply (fold_left_preserves
           (λ acc, classified st acc.2 ∧ (Inv st → Inv acc.2)
                   ∧ ∀ t, t ∈ acc.1 → t ∈ (topic_data st).*1)).
  { split_and!; [apply classified_refl|done|]. by intros t ?%elem_of_nil. }
  intros [acc s] [t d] Hitem (Hcl & Hinv & Hacc). cbn [fst snd] in *.
  assert (t ∈ (topic_data st).*1) as Hkey.
  { apply list_elem_of_fmap. by exists (t, d). }
  split_and!.
  - eapply classified_trans; [done|]. apply classified_classify.
  - intros Hst. specialize (Hinv Hst).
    destruct (classify_specP acc s t d) as [? ? ? Hnew|Hr Hl|]; simpl; try done.
    + apply Inv_report; [|done..]. by rewrite (cl_data _ _ Hcl).
    + exfalso. destruct Hinv. rewrite <- (cl_data _ _ Hcl) in Hitem.
      apply inv_consistent0 in Hitem as [[? Hsome] _]; [done|]. congruence.
  - intros t'. destruct (classify_specP acc s t d); simpl; try by apply Hacc.
    intros [?|Heq%list_elem_of_singleton]%elem_of_app; [by apply Hacc|].
    by subst.
Qed.

(** The unexpected-state warnings of the loop. *)
Lemma classify_fold_unexpected t items acc s :
  WarnUnexpected t ∈ logged (fold_left classify items (acc, s)).2
  ↔ WarnUnexpected t ∈ logged s
    ∨ ∃ d, (t, d) ∈ items ∧ received d = true ∧ last_received d = None.
Proof.
  revert acc s. induction items as [|[t0 d0] items IH]; intros acc s;
    cbn [fold_left].
  - split; [by left|]. intros [?|(d & ?%elem_of_nil & _)]; done.
  - destruct (classify_specP acc s t0 d0) as [Hr _ _ _|Hr Hl|_ Hno];
      rewrite IH; simpl; rewrite ?elem_of_app, ?list_elem_of_singleton;
      setoid_rewrite elem_of_cons.
    + split; [intros [[?|?]|(d & ? & ?)]; [by left|done|right; eauto]|].
      intros [?|(d & [[= -> ->]|?] & Hd & ?)]; [by left; left|congruence|eauto].
    + split.
      * intros [[?|[= ->]]|(d & ? & ?)]; [by left|right; eauto..].
      * intros [?|(d & [[= -> ->]|?] & ?)]; [by left; left|by left; right|eauto].
    + split; [intros [?|(d & ? & ?)]; [by left|right; eauto]|].
      intros [?|(d & [[= -> ->]|?] & ?)]; [by left|tauto|eauto].
Qed.

Lemma reportable_key s items t : reportable s items t → t ∈ items.*1.
Proof. intros (d & ? & _). apply list_elem_of_fmap. by exists (t, d). Qed.

Lemma reportable_cons s t0 d0 items t :
  reportable s ((t0, d0) :: items) t
  ↔ (t = t0 ∧ received d0 = false ∧ (t0 ∉ ignore_topics s)
     ∧ length (publishers d0) = 1 ∧ (t0 ∉ reported_topics s))
    ∨ reportable s items t.
Proof.
  unfold reportable. setoid_rewrite elem_of_cons. split.
  - intros (d & [[= -> ->]|?] & ?); [by left|right; eauto].
  - intros [(-> & ?)|(d & ? & ?)]; eauto 10.
Qed.

Lemma reportable_frame s s' items t :
  ignore_topics s' = ignore_topics s →
  (t ∈ reported_topics s' ↔ t ∈ reported_topics s) →
  reportable s' items t ↔ reportable s items t.
Proof.
  intros Hi Hr. unfold reportable. rewrite Hi.
  split; intros (d & ? & ? & ? & ? & ?); exists d; split_and!; try done; tauto.
Qed.

Lemma stuck_warnings_snoc t l e :
  stuck_warnings t (l ++ [e])
  = stuck_warnings t l + (if is_stuck_warning t e then 1 else 0).
Proof.
  rewrite stuck_warnings_app. unfold stuck_warnings. simpl.
  by destruct (is_stuck_warning t e).
Qed.

Lemma classify_fold_stuck items :
  NoDup items.*1 → ∀ acc s t,
  let r := fold_left classify items (acc, s) in
  (t ∈ r.1 ↔ t ∈ acc ∨ reportable s items t)
  ∧ (t ∈ reported_topics r.2 ↔ t ∈ reported_topics s ∨ reportable s items t)
  ∧ (reportable s items t →
     stuck_warnings t (logged r.2) = stuck_warnings t (logged s) + 1)
  ∧ (¬ reportable s items t →
     stuck_warnings t (logged r.2) = stuck_warnings t (logged s)).
Proof.
  induction items as [|[t0 d0] items IH]; intros Hnd acc s t.
  { assert (¬ reportable s [] t) by (by intros ?%reportable_key%elem_of_nil).
    simpl. tauto. }
  rewrite fmap_cons in Hnd. apply NoDup_cons in Hnd as [Hfresh Hnd].
  cbn [fst] in Hfresh. cbn zeta. cbn [fold_left].
  specialize (IH Hnd). rewrite reportable_cons.
  destruct (classify_specP acc s t0 d0) as [Hr Hi Hl Hn|Hr Hl|Hno _].
  - destruct (IH (acc ++ [t0])
                (add_reported t0
                   (emit (WarnStuck t0 (first_publisher_name (publishers d0))) s)) t)
      as (IH1 & IH2 & IH3 & IH4).
    cbn [reported_topics logged add_reported emit] in *.
    rewrite stuck_warnings_snoc in IH3, IH4. cbn [is_stuck_warning] in *.
    destruct (decide (t = t0)) as [->|Hne].
    + assert (¬ reportable
                (add_reported t0
                   (emit (WarnStuck t0 (first_publisher_name (publishers d0))) s))
                items t0) as Hnone by (by intros ?%reportable_key).
      rewrite bool_decide_eq_true_2 in IH4 by done.
      rewrite IH1, IH2, elem_of_app, list_elem_of_singleton, elem_of_union,
        elem_of_singleton.
      split_and!; [tauto|tauto|by intros _; apply IH4|].
      intros Hnot. destruct Hnot. by left.
    + rewrite bool_decide_eq_false_2 in IH3, IH4 by done.
      rewrite Nat.add_0_r in IH3, IH4.
      rewrite (reportable_frame s) in IH1, IH2, IH3, IH4
        by (try done; simpl; set_solver).
      rewrite IH1, IH2, elem_of_app, list_elem_of_singleton, elem_of_union,
        elem_of_singleton.
      split_and!; [naive_solver|naive_solver| |].
      * intros [[? _]|?]; [done|by apply IH3].
      * intros Hnot. apply IH4. tauto.
  - destruct (IH acc (emit (WarnUnexpected t0) s) t) as (IH1 & IH2 & IH3 & IH4).
    cbn [reported_topics logged emit] in *.
    rewrite stuck_warnings_snoc in IH3, IH4. cbn [is_stuck_warning] in *.
    rewrite Nat.add_0_r in IH3, IH4.
    rewrite (reportable_frame s) in IH1, IH2, IH3, IH4 by done.
    rewrite IH1, IH2.
    split_and!; [split; [tauto|] | split; [tauto|] | |].
    + intros [?|[(_ & ? & _)|?]]; [tauto|congruence|tauto].
    + intros [?|[(_ & ? & _)|?]]; [tauto|congruence|tauto].
    + intros [(_ & ? & _)|?]; [congruence|by apply IH3].
    + intros Hnot. apply IH4. tauto.
  - destruct (IH acc s t) as (IH1 & IH2 & IH3 & IH4).
    rewrite IH1, IH2.
    split_and!; [split; [tauto|] | split; [tauto|] | |].
    + intros [?|[(_ & ?)|?]]; [tauto|tauto|tauto].
    + intros [?|[(_ & ?)|?]]; [tauto|tauto|tauto].
    + intros [(_ & ?)|?]; [tauto|by apply IH3].
    + intros Hnot. apply IH4. tauto.
Qed.

(** ** The invariant is kept by every operation *)

Lemma resolve_failure g t e :
  resolve_msg_class g t = inl e →
  e = WarnNoType t ∨ ∃ f, e = ErrorImport t f.
Proof.
  unfold resolve_msg_class. destruct (get_topic_type g t) as [ty|]; [|naive_solver].
  case_bool_decide; [naive_solver|].
  destruct (import_msg_class g ty); naive_solver.
Qed.

Lemma Inv_check_topics_step g st t : Inv st → Inv (check_topics_step g st t).
Proof.
  intros Hinv. unfold check_topics_step. case_bool_decide; [|done].
  unfold check_topic. destruct (resolve_msg_class g t) as [e|cls] eqn:Hres.
  - apply Inv_add_checked, Inv_emit; [..|done];
      apply resolve_failure in Hres as [->|[f ->]]; done.
  - by apply Inv_subscribe.
Qed.

Lemma Inv_check_topics_begin g st : Inv st → Inv (check_topics_begin g st).
Proof.
  intros Hinv. unfold check_topics_begin.
  apply (fold_left_preserves Inv); [by apply Inv_set_check_completed|].
  intros s t _. apply Inv_check_topics_step.
Qed.

Lemma Inv_topic_callback t now st : Inv st → Inv (topic_callback t now st).1.
Proof.
  intros Hinv. unfold topic_callback.
  destruct (dict_get t (topic_data st)) as [data|] eqn:Hget; [|done]. simpl.
  apply Inv_update; [|split; eauto|done].
  apply dict_get_is_Some. eauto.
Qed.

Lemma Inv_deliver st m : Inv st → Inv (deliver st m).1.
Proof.
  intros Hinv. destruct m as [t now]. simpl.
  destruct (subscribed t st); [by apply Inv_topic_callback|done].
Qed.

Lemma Inv_deliver_all ms st : Inv st → Inv (deliver_all ms st).1.
Proof.
  revert st. induction ms as [|m ms IH]; intros st Hinv; [done|]. simpl.
  pose proof (Inv_deliver st m Hinv) as Hm.
  destruct (deliver st m) as [st' [e|]]; [done|]. by apply IH.
Qed.

Lemma Inv_finish_check_loop g topics st :
  Inv st → Inv (finish_check_loop g topics st).1.
Proof.
  revert st. induction topics as [|t topics IH]; intros st Hinv; [done|]. simpl.
  destruct (dict_get t (topic_data st)) as [data|] eqn:Hget; [|done].
  apply IH, Inv_update; [| |done].
  - apply dict_get_is_Some. eauto.
  - apply dict_get_Some_elem in Hget.
    apply (inv_consistent _ Hinv) in Hget. exact Hget.
Qed.

Lemma Inv_finish_check g st : Inv st → Inv (finish_check g st).1.
Proof.
  intros Hinv. unfold finish_check.
  pose proof (Inv_finish_check_loop g (important_topics st) st Hinv) as Hl.
  destruct (finish_check_loop g (important_topics st) st) as [st' [e|]]; [done|].
  by apply Inv_set_check_completed.
Qed.

(** ** [analyze_results], phase by phase *)

(** The stuck topics have an observation, so the tracer finds the
    publishers of each: no [KeyError] leaves the second loop. *)
Lemma trace_all_returns g l st :
  (∀ t, t ∈ l → t ∈ (topic_data st).*1) → (trace_all g l st).2 = None.
Proof.
  revert st. induction l as [|t l IH]; intros st Hl; [done|]. simpl.
  pose proof (traced_analyze_topic_connections g t st) as Ht.
  unfold analyze_topic_connections in *.
  destruct (dict_get t (topic_data st)) as [data|] eqn:Hget.
  - cbn [fst] in Ht. apply IH. intros t' Ht'. rewrite (tr_data _ _ _ Ht).
    apply Hl, elem_of_cons. by right.
  - apply dict_get_None in Hget. destruct Hget. apply Hl, elem_of_cons. by left.
Qed.

Lemma analyze_results_unfold g st :
  analyze_results g st =
  if bool_decide (topics_to_check_next_round (after_tracing g st) ≠ ∅)
  then (take_next_round
          (emit (InfoNextRound
                   (elements (topics_to_check_next_round (after_tracing g st))))
                (after_tracing g st)),
        NextRound)
  else (after_tracing g st, Return).
Proof.
  unfold analyze_results, after_tracing.
  destruct (classify_all_frame st) as (Hcl & _ & Hkeys).
  destruct (classify_all st) as [stuck st1]. cbn [fst snd] in *.
  pose proof (trace_all_returns g stuck st1) as Hret.
  destruct (trace_all g stuck st1) as [st2 [e|]]; cbn [fst snd] in *.
  - rewrite (cl_data _ _ Hcl) in Hret. by specialize (Hret Hkeys).
  - done.
Qed.

Lemma traced_after_tracing g st : traced g (classify_all st).2 (after_tracing g st).
Proof. apply traced_trace_all. Qed.

Lemma Inv_after_tracing g st : Inv st → Inv (after_tracing g st).
Proof.
  intros Hinv. eapply Inv_traced; [apply traced_after_tracing|].
  by apply classify_all_frame.
Qed.

Lemma Inv_analyze_results g st : Inv st → Inv (analyze_results g st).1.
Proof.
  intros Hinv. rewrite analyze_results_unfold.
  case_bool_decide; [|by apply Inv_after_tracing].
  apply Inv_take_next_round, Inv_emit; [done..|]. by apply Inv_after_tracing.
Qed.

Lemma Inv_exec st op : Inv st → Inv (exec st op).
Proof.
  destruct op; simpl.
  - apply Inv_check_topics_begin.
  - apply (Inv_deliver st (topic, now)).
  - apply Inv_finish_check.
  - apply Inv_analyze_results.
Qed.

Lemma Inv_run ops st : Inv st → Inv (run ops st).
Proof.
  intros Hinv. apply (fold_left_preserves Inv); [done|].
  intros s op _. apply Inv_exec.
Qed.

Lemma run_app ops ops' st : run (ops ++ ops') st = run ops' (run ops st).
Proof. apply fold_left_app. Qed.

(** ** What no operation changes, and what only grows *)

Lemma evolves_refl st : evolves st st.
Proof. by split. Qed.

Lemma evolves_trans st1 st2 st3 : evolves st1 st2 → evolves st2 st3 → evolves st1 st3.
Proof. intros [] []. split; try congruence; set_solver. Qed.

Lemma evolves_check_topics_step g st t : evolves st (check_topics_step g st t).
Proof.
  unfold check_topics_step. case_bool_decide; [|apply evolves_refl].
  unfold check_topic. destruct (resolve_msg_class g t); split; simpl; set_solver.
Qed.

Lemma evolves_check_topics_begin g st : evolves st (check_topics_begin g st).
Proof.
  unfold check_topics_begin.
  apply (fold_left_preserves (evolves st)); [by split|].
  intros s t _ Hs. eapply evolves_trans; [done|apply evolves_check_topics_step].
Qed.

Lemma evolves_deliver st m : evolves st (deliver st m).1.
Proof.
  destruct m as [t now]. simpl. destruct (subscribed t st); [|apply evolves_refl].
  unfold topic_callback. destruct (dict_get t (topic_data st)); by split.
Qed.

Lemma evolves_finish_check_loop g topics st :
  evolves st (finish_check_loop g topics st).1.
Proof.
  revert st. induction topics as [|t topics IH]; intros st; [apply evolves_refl|].
  simpl. destruct (dict_get t (topic_data st)); [|apply evolves_refl].
  eapply evolves_trans; [|apply IH]. by split.
Qed.

Lemma evolves_finish_check g st : evolves st (finish_check g st).1.
Proof.
  unfold finish_check.
  pose proof (evolves_finish_check_loop g (important_topics st) st) as Hl.
  destruct (finish_check_loop g (important_topics st) st) as [st' [e|]]; [done|].
  eapply evolves_trans; [done|]. by split.
Qed.

Lemma evolves_after_tracing g st : evolves st (after_tracing g st).
Proof.
  destruct (classify_all_frame st) as ([] & _).
  destruct (traced_after_tracing g st).
  split; try congruence. set_solver.
Qed.

Lemma evolves_analyze_results g st : evolves st (analyze_results g st).1.
Proof.
  rewrite analyze_results_unfold.
  case_bool_decide; [|apply evolves_after_tracing].
  eapply evolves_trans; [apply evolves_after_tracing|]. by split.
Qed.

Lemma evolves_exec st op : evolves st (exec st op).
Proof.
  destruct op; simpl.
  - apply evolves_check_topics_begin.
  - apply (evolves_deliver st (topic, now)).
  - apply evolves_finish_check.
  - apply evolves_analyze_results.
Qed.

Lemma evolves_run ops st : evolves st (run ops st).
Proof.
  apply (fold_left_preserves (evolves st)); [apply evolves_refl|].
  intros s op _ Hs. eapply evolves_trans; [done|apply evolves_exec].
Qed.

(** ** Observations are kept *)

Lemma persists_refl st : persists st st.
Proof. intros t d ?. by exists d. Qed.

Lemma persists_same st st' : topic_data st' = topic_data st → persists st st'.
Proof. intros E t d ?. exists d. by rewrite E. Qed.

Lemma persists_trans st1 st2 st3 :
  persists st1 st2 → persists st2 st3 → persists st1 st3.
Proof.
  intros H12 H23 t d (d2 & Hd2 & ? & ?)%H12.
  apply H23 in Hd2 as (d3 & ? & ? & ?). exists d3. auto.
Qed.

Lemma persists_update st t0 d0 d0' :
  dict_get t0 (topic_data st) = Some d0 →
  (received d0 = true → received d0' = true) →
  (is_Some (last_received d0) → is_Some (last_received d0')) →
  persists st (set_topic_data (dict_set t0 d0' (topic_data st)) st).
Proof.
  intros Hget Hr Hl t d Hd. simpl. rewrite dict_get_set.
  case_decide; [|by exists d]. subst. exists d0'. split; [done|]. naive_solver.
Qed.

(** A topic that has an observation is in [checked_topics]: the loop of
    [check_topics] skips it, and its observation is not written again. *)
Lemma persists_check_topics_step g st t0 :
  Inv st → persists st (check_topics_step g st t0).
Proof.
  intros Hinv. unfold check_topics_step. case_bool_decide as Hnew; [|apply persists_refl].
  unfold check_topic. destruct (resolve_msg_class g t0); [by apply persists_same|].
  intros t d Hd. simpl. exists d. split; [|done].
  rewrite dict_get_set_ne; [done|]. intros <-. apply Hnew.
  apply (inv_checked _ Hinv), dict_get_is_Some. eauto.
Qed.

Lemma persists_check_topics_begin g st :
  Inv st → persists st (check_topics_begin g st).
Proof.
  intros Hinv. unfold check_topics_begin.
  apply (fold_left_preserves (λ s, Inv s ∧ persists st s)).
  - split; [by apply Inv_set_check_completed|by apply persists_same].
  - intros s t _ [Hs Hp]. split; [by apply Inv_check_topics_step|].
    eapply persists_trans; [done|by apply persists_check_topics_step].
Qed.

Lemma persists_topic_callback t now st : persists st (topic_callback t now st).1.
Proof.
  unfold topic_callback.
  destruct (dict_get t (topic_data st)) as [data|] eqn:Hget; [|apply persists_refl].
  simpl. by eapply persists_update.
Qed.

Lemma persists_deliver st m : persists st (deliver st m).1.
Proof.
  destruct m as [t now]. simpl.
  destruct (subscribed t st); [apply persists_topic_callback|apply persists_refl].
Qed.

Lemma persists_finish_check_loop g topics st :
  persists st (finish_check_loop g topics st).1.
Proof.
  revert st. induction topics as [|t topics IH]; intros st; [apply persists_refl|].
  simpl. destruct (dict_get t (topic_data st)) as [data|] eqn:Hget;
    [|apply persists_refl].
  eapply persists_trans; [|apply IH]. by eapply persists_update.
Qed.

Lemma persists_finish_check g st : persists st (finish_check g st).1.
Proof.
  unfold finish_check.
  pose proof (persists_finish_check_loop g (important_topics st) st) as Hl.
  destruct (finish_check_loop g (important_topics st) st) as [st' [e|]]; [done|].
  eapply persists_trans; [done|]. by apply persists_same.
Qed.

Lemma topic_data_after_tracing g st :
  topic_data (after_tracing g st) = topic_data st.
Proof.
  destruct (classify_all_frame st) as ([] & _).
  destruct (traced_after_tracing g st). congruence.
Qed.

Lemma topic_data_analyze_results g st :
  topic_data (analyze_results g st).1 = topic_data st.
Proof.
  rewrite analyze_results_unfold.
  case_bool_decide; simpl; apply topic_data_after_tracing.
Qed.

Lemma persists_exec st op : Inv st → persists st (exec st op).
Proof.
  intros Hinv. destruct op; simpl.
  - by apply persists_check_topics_begin.
  - apply (persists_deliver st (topic, now)).
  - apply persists_finish_check.
  - apply persists_same, topic_data_analyze_results.
Qed.

(** ** The rounds are sequences of operations *)

Lemma deliver_all_reachable messages st :
  ∃ ops, (deliver_all messages st).1 = run ops st.
Proof.
  revert st. induction messages as [|[t now] messages IH]; intros st.
  { by exists []. }
  cbn [deliver_all].
  destruct (deliver st (t, now)) as [st' [e|]] eqn:Hm.
  - exists [OpMessage t now]. simpl in *. by rewrite Hm.
  - destruct (IH st') as [ops Hops]. exists (OpMessage t now :: ops).
    rewrite Hops. simpl in *. by rewrite Hm.
Qed.

Lemma check_topics_loop_returns g topics st :
  (check_topics_loop g topics st).2 = None →
  (check_topics_loop g topics st).1 = fold_left (check_topics_step g) topics st.
Proof.
  revert st. induction topics as [|t topics IH]; intros st; [done|].
  cbn [check_topics_loop fold_left]. unfold check_topics_step at 2.
  case_bool_decide; [|apply IH].
  destruct (check_topic_raises g t); [done|apply IH].
Qed.

Lemma check_topics_loop_raises g topics st e :
  (check_topics_loop g topics st).2 = Some e → e = TypeError.
Proof.
  revert st. induction topics as [|t topics IH]; intros st; [done|].
  cbn [check_topics_loop]. case_bool_decide; [|apply IH].
  unfold check_topic_raises.
  destruct (get_topic_type g t) as [ty|]; [|apply IH].
  case_bool_decide; [apply IH|].
  destruct (split_slash ty) as [|a [|b [|c [|d l]]]]; try apply IH.
  destruct (relative_module a); [by intros [= <-]|apply IH].
Qed.

(** Where no [TypeError] ends it, the loop is the pass [check_topics_begin]. *)
Lemma check_topics_pass_returns g st st0 :
  check_topics_pass g st = (st0, None) → st0 = check_topics_begin g st.
Proof.
  unfold check_topics_pass, check_topics_begin. intros Hpass.
  pose proof (check_topics_loop_returns g (important_topics st)
                (set_check_completed false st)) as Hl.
  rewrite Hpass in Hl. by apply Hl.
Qed.

(** The state that [check_topics] ends in is reached by operations from the
    state it starts in, unless a [TypeError] ended a subscribing loop half
    way. *)
Lemma check_topics_reachable nesting rounds st :
  (check_topics nesting rounds st).2 ≠ Raised TypeError →
  ∃ ops, (check_topics nesting rounds st).1 = run ops st.
Proof.
  revert nesting st. induction rounds as [|r rest IH]; intros nesting st.
  { by exists []. }
  cbn [check_topics].
  pose proof (check_topics_loop_raises (at_check r) (important_topics st)
                (set_check_completed false st)) as Hraise.
  destruct (check_topics_pass (at_check r) st) as [st0 [e|]] eqn:H0.
  { unfold check_topics_pass in H0. rewrite H0 in Hraise.
    rewrite (Hraise e eq_refl). by intros []. }
  clear Hraise. apply check_topics_pass_returns in H0 as ->.
  destruct (deliver_all_reachable (arrivals r) (check_topics_begin (at_check r) st))
    as [ops1 H1].
  destruct (deliver_all (arrivals r) (check_topics_begin (at_check r) st))
    as [st1 [e|]]; cbn [fst] in H1.
  { intros _. exists (OpCheckTopics (at_check r) :: ops1). by rewrite H1. }
  destruct (finish_check (at_finish r) st1) as [st2 [e|]] eqn:H2.
  { intros _.
    exists (OpCheckTopics (at_check r) :: ops1 ++ [OpFinishCheck (at_finish r)]).
    cbn [run fold_left exec]. fold (run (ops1 ++ [OpFinishCheck (at_finish r)])).
    rewrite run_app, <- H1. simpl. by rewrite H2. }
  assert (st2 = run (OpCheckTopics (at_check r) :: ops1
                       ++ [OpFinishCheck (at_finish r)]) st) as Hst2.
  { cbn [run fold_left exec]. fold (run (ops1 ++ [OpFinishCheck (at_finish r)])).
    rewrite run_app, <- H1. simpl. by rewrite H2. }
  destruct (analyze_results (at_analyze r) st2) as [st3 next] eqn:H3.
  assert (st3 = run [OpAnalyzeResults (at_analyze r)] st2) as Hst3.
  { simpl. by rewrite H3. }
  destruct next as [| |e]; cbn [resume fst].
  - intros _. eexists. rewrite Hst3, Hst2, <- run_app. reflexivity.
  - destruct nesting as [|nesting'].
    + intros _. eexists. rewrite Hst3, Hst2, <- run_app. reflexivity.
    + intros Hout. destruct (IH nesting' st3 Hout) as [ops3 Hrest]. eexists.
      rewrite Hrest, Hst3, Hst2, <- !run_app. reflexivity.
  - intros _. eexists. rewrite Hst3, Hst2, <- run_app. reflexivity.
Qed.

(** * The claims *)

(** ** Invariants of the state *)

(** C9. After every operation, from the initial state on: every topic with
    an observation has a subscription of the node and is in
    [checked_topics]; [reported_topics] is included in [checked_topics]; and
    no operation removes an element of [checked_topics] or of
    [reported_topics]. *)
Theorem invariants_after_every_operation lib ops :
  let st := run ops (init lib) in
  (∀ t, t ∈ (topic_data st).*1 →
        t ∈ sub_topic <$> subscriptions st ∧ t ∈ checked_topics st)
  ∧ reported_topics st ⊆ checked_topics st
  ∧ ∀ op, checked_topics st ⊆ checked_topics (exec st op)
          ∧ reported_topics st ⊆ reported_topics (exec st op).
Proof.
  intros st. assert (Inv st) as Hinv by apply Inv_run, Inv_init.
  split_and!.
  - intros t Ht. split; [by apply (inv_subscribed _ Hinv)|by apply (inv_checked _ Hinv)].
  - intros t Ht. by apply (inv_checked _ Hinv), (inv_reported _ Hinv).
  - intros op. destruct (evolves_exec st op). done.
Qed.

(** Between whole operations, that is in the runs of [run], where no
    [analyze_results] falls between the two statements of a callback: an
    observation has [received] true exactly when [last_received] is not
    [None], and the log has no unexpected-state warning.  The runs where
    the statements of the callback are steps of their own are those of
    [steps]. *)
Lemma consistent_between_operations lib ops :
  let st := run ops (init lib) in
  (∀ t data, (t, data) ∈ topic_data st →
     (received data = true ↔ last_received data ≠ None))
  ∧ (∀ g t msg_class, resolve_msg_class g t = inr msg_class →
       ∃ data, dict_get t (topic_data (check_topic g t st)) = Some data
               ∧ received data = false ∧ last_received data = None)
  ∧ (∀ t now data, dict_get t (topic_data st) = Some data →
       ∃ data', dict_get t (topic_data (topic_callback t now st).1) = Some data'
                ∧ received data' = true ∧ last_received data' = Some now)
  ∧ (∀ op t data, dict_get t (topic_data st) = Some data →
       ∃ data', dict_get t (topic_data (exec st op)) = Some data'
                ∧ (received data = true → received data' = true)
                ∧ (last_received data ≠ None → last_received data' ≠ None))
  ∧ (∀ t, WarnUnexpected t ∉ logged st).
Proof.
  intros st. assert (Inv st) as Hinv by apply Inv_run, Inv_init.
  split_and!.
  - intros t data Hin. rewrite not_eq_None_Some.
    apply (inv_consistent _ Hinv t data Hin).
  - intros g t msg_class Hres. exists fresh_topic_data.
    unfold check_topic. rewrite Hres. simpl. by rewrite dict_get_set_eq.
  - intros t now data Hget. unfold topic_callback. rewrite Hget. simpl.
    rewrite dict_get_set_eq. eauto.
  - intros op t data Hget.
    destruct (persists_exec st op Hinv t data Hget) as (data' & ? & ? & ?).
    exists data'. by rewrite !not_eq_None_Some.
  - apply (inv_expected _ Hinv).
Qed.

(** ** The profile of a subscription *)

(** C7. The subscription that [check_topic] creates for a topic uses the
    default profile of the node (volatile, best effort, keep last, depth 1)
    when the graph has no publisher of the topic, and otherwise the eight
    fields of the profile of a publisher of the topic (the first one). *)
Theorem subscription_profile lib ops g topic msg_class :
  let st := run ops (init lib) in
  resolve_msg_class g topic = inr msg_class →
  ∃ qos,
    subscriptions (check_topic g topic st)
    = subscriptions st
      ++ [{| sub_msg_class := msg_class; sub_topic := topic; sub_qos := qos |}]
    ∧ match get_publishers_info_by_topic g topic with
      | [] =>
          qos = default_qos_profile st
          ∧ durability qos = DUR_VOLATILE
          ∧ reliability qos = REL_BEST_EFFORT
          ∧ history qos = HIST_KEEP_LAST
          ∧ depth qos = 1%Z
      | publisher :: _ =>
          durability qos = durability (qos_profile publisher)
          ∧ reliability qos = reliability (qos_profile publisher)
          ∧ history qos = history (qos_profile publisher)
          ∧ depth qos = depth (qos_profile publisher)
          ∧ lifespan qos = lifespan (qos_profile publisher)
          ∧ deadline qos = deadline (qos_profile publisher)
          ∧ liveliness qos = liveliness (qos_profile publisher)
          ∧ liveliness_lease_duration qos
            = liveliness_lease_duration (qos_profile publisher)
      end.
Proof.
  intros st Hres. unfold check_topic. rewrite Hres.
  eexists. split; [reflexivity|].
  unfold get_publisher_qos.
  destruct (get_publishers_info_by_topic g topic) as [|publisher ?]; simpl.
  - split; [done|]. subst st. by rewrite (ev_qos _ _ (evolves_run ops (init lib))).
  - done.
Qed.

(** ** The tracer *)

(** C8. A topic with more than two publishers is skipped by the tracer:
    the loop body leaves the state as it is, so that tracing a stuck topic
    writes no log entry about it (no status, no error) and does not add it
    to [topics_to_check_next_round]. *)
Theorem fan_in_topic_is_skipped g st stuck_topic t :
  2 < length (get_publishers_info_by_topic g t) →
  let st' := (analyze_topic_connections g stuck_topic st).1 in
  (∀ name types s, trace_subscription g name s (t, types) = s)
  ∧ (∃ new, logged st' = logged st ++ new
            ∧ ∀ e, e ∈ new → log_topic e ≠ Some t)
  ∧ (t ∈ topics_to_check_next_round st' ↔ t ∈ topics_to_check_next_round st).
Proof.
  intros Hmany st'.
  destruct (traced_analyze_topic_connections g stuck_topic st)
    as [_ _ _ _ _ _ _ _ (new & Hlog & Hnew) Hkept Hadded].
  split_and!.
  - intros name types s. unfold trace_subscription. simpl.
    case_bool_decide; [done|].
    rewrite bool_decide_eq_false_2 by lia. by rewrite bool_decide_eq_true_2.
  - exists new. split; [done|]. intros e He%Hnew Habout.
    destruct e; simpl in *; try done; simplify_eq;
      unfold expandable in *; lia.
  - split; [|by apply Hkept].
    intros [?|(_ & ? & _)]%Hadded; [done|lia].
Qed.

(** ** A topic whose type does not resolve *)

Lemma fold_left_reaches {A B} (R : A → A → Prop) (Q : A → Prop)
    (f : A → B → A) (l : list B) x a :
  x ∈ l →
  (∀ s, R s s) → (∀ s1 s2 s3, R s1 s2 → R s2 s3 → R s1 s3) →
  (∀ s b, R s (f s b)) →
  (∀ s, R a s → Q (f s x)) →
  (∀ s s', R s s' → Q s → Q s') →
  Q (fold_left f l a).
Proof.
  intros (l1 & l2 & ->)%list_elem_of_split Hrefl Htrans Hf Hx Hmono.
  assert (∀ l s, R s (fold_left f l s)) as Hfold.
  { intros l. induction l as [|b l IH]; intros s; [apply Hrefl|]. simpl.
    eapply Htrans; [apply Hf|apply IH]. }
  rewrite fold_left_app. simpl.
  eapply Hmono; [apply Hfold|]. apply Hx, Hfold.
Qed.

Lemma check_topics_begin_checked g st t :
  t ∈ important_topics st → t ∈ checked_topics (check_topics_begin g st).
Proof.
  intros Ht. unfold check_topics_begin.
  apply (fold_left_reaches evolves (λ s, t ∈ checked_topics s) _ _ t).
  - done.
  - apply evolves_refl.
  - apply evolves_trans.
  - intros. apply evolves_check_topics_step.
  - intros s _. unfold check_topics_step.
    case_bool_decide as Hc; [simpl; set_solver|].
    destruct (decide (t ∈ checked_topics s)); done.
  - intros s s' [] ?. set_solver.
Qed.



Lemma keys_update st t data :
  t ∈ (topic_data st).*1 →
  (topic_data (set_topic_data (dict_set t data (topic_data st)) st)).*1
  = (topic_data st).*1.
Proof. intros Ht. simpl. by rewrite dict_set_keys, decide_True. Qed.

Lemma keys_topic_callback t now st :
  (topic_data (topic_callback t now st).1).*1 = (topic_data st).*1.
Proof.
  unfold topic_callback.
  destruct (dict_get t (topic_data st)) as [data|] eqn:Hget; [|done].
  apply keys_update, dict_get_is_Some. eauto.
Qed.

Lemma keys_finish_check_loop g topics st :
  (topic_data (finish_check_loop g topics st).1).*1 = (topic_data st).*1.
Proof.
  revert st. induction topics as [|t topics IH]; intros st; [done|]. simpl.
  destruct (dict_get t (topic_data st)) as [data|] eqn:Hget; [|done].
  rewrite IH. apply keys_update, dict_get_is_Some. eauto.
Qed.

Lemma keys_finish_check g st :
  (topic_data (finish_check g st).1).*1 = (topic_data st).*1.
Proof.
  unfold finish_check.
  pose proof (keys_finish_check_loop g (important_topics st) st) as Hl.
  by destruct (finish_check_loop g (important_topics st) st) as [st' [e|]].
Qed.




(** ** [finish_check] *)

Lemma finish_check_loop_stores g topics st :
  (∀ t, t ∈ topics → t ∈ (topic_data st).*1) →
  (finish_check_loop g topics st).2 = None
  ∧ ∀ t, dict_get t (topic_data (finish_check_loop g topics st).1)
         = if decide (t ∈ topics)
           then with_publishers g t <$> dict_get t (topic_data st)
           else dict_get t (topic_data st).
Proof.
  revert st. induction topics as [|t0 topics IH]; intros st Hall.
  { split; [done|]. intros t. rewrite decide_False; [done|]. apply not_elem_of_nil. }
  assert (t0 ∈ (topic_data st).*1) as Ht0 by (apply Hall, elem_of_cons; by left).
  cbn [finish_check_loop].
  destruct (dict_get t0 (topic_data st)) as [data|] eqn:Hget;
    [|by apply dict_get_None in Hget].
  fold (with_publishers g t0 data).
  destruct (IH (set_topic_data (dict_set t0 (with_publishers g t0 data)
                                  (topic_data st)) st)) as [Hok Hstored].
  { intros t Ht. rewrite keys_update by done. apply Hall, elem_of_cons. by right. }
  split; [done|]. intros t. rewrite Hstored. simpl. rewrite dict_get_set.
  destruct (decide (t0 = t)) as [<-|Hne].
  - rewrite Hget. rewrite (decide_True (P := t0 ∈ t0 :: topics))
      by (apply elem_of_cons; by left).
    by case_decide.
  - destruct (decide (t ∈ topics)) as [Hin|Hin].
    + rewrite decide_True; [done|]. apply elem_of_cons. by right.
    + rewrite decide_False; [done|]. rewrite elem_of_cons. naive_solver.
Qed.

(** Where every topic of the round has an observation, [finish_check]
    stores the publishers of each and sets [check_completed]. *)
Lemma finish_check_stores g st :
  (∀ t, t ∈ important_topics st → t ∈ (topic_data st).*1) →
  (finish_check g st).2 = None
  ∧ check_completed (finish_check g st).1 = true
  ∧ ∀ t, t ∈ important_topics st →
      ∃ data, dict_get t (topic_data (finish_check g st).1) = Some data
              ∧ publishers data
                = map (λ p, (node_name p, node_namespace p))
                      (get_publishers_info_by_topic g t).
Proof.
  intros Hall. unfold finish_check.
  destruct (finish_check_loop_stores g (important_topics st) st Hall) as [Hok Hst].
  destruct (finish_check_loop g (important_topics st) st) as [st' [e|]];
    [done|]. cbn [fst snd] in *.
  split_and!; try done. intros t Ht. simpl. rewrite Hst, decide_True by done.
  apply Hall, dict_get_is_Some in Ht as [data ->]. by eexists.
Qed.

(** Where a topic of the round has no observation, [finish_check] raises a
    [KeyError] and [check_completed] is left as it was. *)
Lemma finish_check_raises g st t :
  t ∈ important_topics st → t ∉ (topic_data st).*1 →
  (∃ t', (finish_check g st).2 = Some (KeyError t'))
  ∧ check_completed (finish_check g st).1 = check_completed st.
Proof.
  intros Hin Hun. unfold finish_check.
  assert (∀ topics s, t ∈ topics → t ∉ (topic_data s).*1 →
            (∃ t', (finish_check_loop g topics s).2 = Some (KeyError t'))
            ∧ check_completed (finish_check_loop g topics s).1
              = check_completed s) as Hloop.
  { clear. induction topics as [|t0 topics IH]; intros s Hin Hun.
    { by apply elem_of_nil in Hin. }
    simpl. destruct (dict_get t0 (topic_data s)) as [data|] eqn:Hget;
      [|by eauto].
    apply elem_of_cons in Hin as [->|Hin].
    { apply dict_get_None in Hun. congruence. }
    edestruct IH as [Hraise Hcompleted]; [done| |split; [exact Hraise|exact Hcompleted]].
    rewrite keys_update; [done|]. apply dict_get_is_Some. eauto. }
  destruct (Hloop (important_topics st) st Hin Hun) as [[t' Ht'] Hc].
  destruct (finish_check_loop g (important_topics st) st) as [st' [e|]];
    cbn [fst snd] in *; [|done]. eauto.
Qed.

(** ** A lead without publishers *)

(** C2, as the code has it.  For a topic without publishers that the
    publisher node of a stuck topic subscribes to (and that is not ignored)
    the tracer logs the error, and then goes on as for a topic with one or
    two publishers: the topic is added to [topics_to_check_next_round] when
    it has no observation and is not in [checked_topics]. *)
Theorem lead_without_publishers g st stuck_topic data name namespace t types :
  dict_get stuck_topic (topic_data st) = Some data →
  (name, namespace) ∈ publishers data →
  (t, types) ∈ get_subscriber_names_and_types_by_node g name namespace →
  t ∉ ignore_topics st →
  get_publishers_info_by_topic g t = [] →
  let st' := (analyze_topic_connections g stuck_topic st).1 in
  ErrorNoPublishers name t ∈ logged st'
  ∧ (t ∈ topics_to_check_next_round st'
     ↔ t ∈ topics_to_check_next_round st
       ∨ (dict_get t (topic_data st) = None ∧ (t ∉ checked_topics st))).
Proof.
  intros Hget Hpub Hsub Hignore Hnone st'.
  assert (length (get_publishers_info_by_topic g t) = 0) as Hzero
    by by rewrite Hnone.
  split_and!.
  - apply (analyze_topic_connections_reaches g stuck_topic st data name
             namespace t types (λ name s, ErrorNoPublishers name t ∈ logged s));
      try done.
    + intros s Hs. apply trace_subscription_error; [|done].
      by rewrite (tr_ignore _ _ _ Hs).
    + intros s s'. apply (traced_logged g).
  - split.
    + intros [?|(_ & _ & ? & ?)]%(tr_added _ _ _
               (traced_analyze_topic_connections g stuck_topic st)); [by left|].
      right. by rewrite dict_get_None.
    + intros [Hold|[Hun Hnew]].
      * apply (traced_frontier g st); [|done].
        apply traced_analyze_topic_connections.
      * apply (analyze_topic_connections_reaches g stuck_topic st data name
                 namespace t types (λ _ s, t ∈ topics_to_check_next_round s));
          try done.
        -- intros s Hs. apply trace_subscription_frontier.
           apply (expandable_frame g st s t Hs).
           split_and!; [done|lia| |done]. by apply dict_get_None.
        -- intros s s'. apply (traced_frontier g).
Qed.

(** ** The unexpected-state warning *)

Lemma unexpected_after_tracing g st t :
  WarnUnexpected t ∈ logged (after_tracing g st)
  ↔ WarnUnexpected t ∈ logged (classify_all st).2.
Proof.
  pose proof (traced_after_tracing g st) as Htr. split.
  - destruct Htr as [_ _ _ _ _ _ _ _ (new & -> & Hnew) _ _].
    intros [?|He%Hnew]%elem_of_app; done.
  - by apply (traced_logged g).
Qed.

(** C5, as the code has it.  [analyze_results] writes the unexpected-state
    warning for a topic exactly when an observation of it has [received]
    true and [last_received] [None]; an observation with [received] false
    gets no such warning, whatever its publishers and whether or not the
    topic was reported. *)
Theorem unexpected_state_warning g st t :
  WarnUnexpected t ∈ logged (analyze_results g st).1
  ↔ WarnUnexpected t ∈ logged st
    ∨ ∃ data, (t, data) ∈ topic_data st
              ∧ received data = true ∧ last_received data = None.
Proof.
  rewrite <- (classify_fold_unexpected t (topic_data st) [] st).
  fold (classify_all st). rewrite <- (unexpected_after_tracing g).
  rewrite analyze_results_unfold. case_bool_decide; [|done]. simpl.
  rewrite elem_of_app, list_elem_of_singleton. naive_solver.
Qed.

(** ** The next round *)

(** The second loop reaches every stuck topic. *)
Lemma trace_all_reaches g l st s (Q : Checker → Prop) :
  s ∈ l →
  (∀ t, t ∈ l → t ∈ (topic_data st).*1) →
  (∀ st1, traced g st st1 → Q (analyze_topic_connections g s st1).1) →
  (∀ st1 st2, traced g st1 st2 → Q st1 → Q st2) →
  Q (trace_all g l st).1.
Proof.
  revert st. induction l as [|t0 l IH]; intros st Hs Hkeys Hstep Hmono.
  { by apply elem_of_nil in Hs. }
  cbn [trace_all].
  pose proof (traced_analyze_topic_connections g t0 st) as Ht0.
  assert ((analyze_topic_connections g t0 st).2 = None) as Hok.
  { unfold analyze_topic_connections.
    destruct (dict_get t0 (topic_data st)) eqn:Hget; [done|].
    apply dict_get_None in Hget. destruct Hget. apply Hkeys, elem_of_cons. by left. }
  destruct (analyze_topic_connections g t0 st) as [st1 [e|]] eqn:Hrun; [done|].
  cbn [fst] in Ht0. apply elem_of_cons in Hs as [->|Hs].
  - eapply Hmono; [apply traced_trace_all|].
    specialize (Hstep st (traced_refl g st)). by rewrite Hrun in Hstep.
  - apply IH; [done| | |done].
    + intros t Ht. rewrite (tr_data _ _ _ Ht0). apply Hkeys, elem_of_cons. by right.
    + intros st2 Hst2. apply Hstep. by eapply traced_trans.
Qed.

Lemma discovered_in_frontier g st t :
  discovered g st t → t ∈ topics_to_check_next_round (after_tracing g st).
Proof.
  intros (s & data & name & namespace & types & Hs & Hget & Hpub & Hsub & Hexp).
  destruct (classify_all_frame st) as (Hcl & _ & Hkeys).
  unfold after_tracing.
  apply (trace_all_reaches g _ _ s (λ st1, t ∈ topics_to_check_next_round st1)).
  - done.
  - intros t' Ht'. rewrite (cl_data _ _ Hcl). by apply Hkeys.
  - intros st1 Hst1.
    apply (analyze_topic_connections_reaches g s st1 data name namespace t types
             (λ _ s, t ∈ topics_to_check_next_round s)); try done.
    + by rewrite (tr_data _ _ _ Hst1), (cl_data _ _ Hcl).
    + intros st2 Hst2. apply trace_subscription_frontier.
      apply (expandable_frame g st1 st2 t Hst2), (expandable_frame g _ st1 t Hst1).
      unfold expandable.
      by rewrite (cl_ignore _ _ Hcl), (cl_data _ _ Hcl), (cl_checked _ _ Hcl).
    + intros st2 st3. apply (traced_frontier g).
  - intros st1 st2. apply (traced_frontier g).
Qed.

Lemma occurrences_NoDup t topics :
  NoDup topics → t ∈ topics → occurrences t topics = 1.
Proof.
  unfold occurrences. induction 1 as [|t0 topics Hnew Hnd IH]; [by intros ?%elem_of_nil|].
  intros [->|Hin]%elem_of_cons; simpl.
  - rewrite String.eqb_refl. simpl. f_equal.
    clear IH Hnd. induction topics as [|t1 topics IH]; [done|]. simpl.
    apply not_elem_of_cons in Hnew as [Hne ?].
    destruct (String.eqb_spec t0 t1); [done|]. by apply IH.
  - destruct (String.eqb_spec t t0) as [->|_]; [done|]. by apply IH.
Qed.

(** C6. When the second loop of [analyze_results] ends with a non-empty
    [topics_to_check_next_round], [important_topics] becomes the list of its
    elements, the set is emptied and [check_topics] is called; a topic in
    the set, in particular one discovered by the tracer, on however many
    paths, occurs once in the new [important_topics].  When the set is
    empty, [analyze_results] returns and no round follows. *)
Theorem next_round_from_frontier g st :
  let frontier := topics_to_check_next_round (after_tracing g st) in
  (frontier ≠ ∅ →
     ∃ st', analyze_results g st = (st', NextRound)
       ∧ important_topics st' = elements frontier
       ∧ topics_to_check_next_round st' = ∅
       ∧ (∀ again, resume again (analyze_results g st) = again st')
       ∧ (∀ t, t ∈ frontier → occurrences t (important_topics st') = 1)
       ∧ (∀ t, discovered g st t → occurrences t (important_topics st') = 1))
  ∧ (frontier = ∅ →
     ∀ again, resume again (analyze_results g st) = (after_tracing g st, Returned)).
Proof.
  intros frontier. rewrite analyze_results_unfold. fold frontier. split.
  - intros Hne. rewrite bool_decide_eq_true_2 by done.
    eexists. split; [reflexivity|]. simpl.
    assert (∀ t, t ∈ frontier → occurrences t (elements frontier) = 1) as Honce.
    { intros t Ht. apply occurrences_NoDup; [apply NoDup_elements|].
      by apply elem_of_elements. }
    split_and!; try done.
    intros t Ht. by apply Honce, discovered_in_frontier.
  - intros Hempty. rewrite bool_decide_eq_false_2; [done|]. by intros ?.
Qed.

(** ** Stuck topics *)

Lemma analyze_results_reported g st :
  reported_topics (analyze_results g st).1 = reported_topics (classify_all st).2.
Proof.
  rewrite analyze_results_unfold.
  case_bool_decide; simpl; apply (tr_reported _ _ _ (traced_after_tracing g st)).
Qed.

Lemma analyze_results_stuck_warnings g st t :
  stuck_warnings t (logged (analyze_results g st).1)
  = stuck_warnings t (logged (classify_all st).2).
Proof.
  rewrite analyze_results_unfold.
  case_bool_decide; simpl; rewrite ?stuck_warnings_snoc; simpl;
    rewrite (stuck_warnings_traced g _ _ t (traced_after_tracing g st)); lia.
Qed.

(** C1. In any state whose observations have distinct topics,
    [analyze_results] treats a topic whose observation has [received] false
    as stuck (one more warning about it in the log, the topic in the list
    of stuck topics and in [reported_topics]) exactly when it is not
    ignored, its observation has one publisher, and it was not reported
    before; otherwise (ignored, another number of publishers, or reported
    already) there is no warning about it and it is not added to either.
    In a state that satisfies the invariant, as every state reached from
    the initial one does, whatever operations follow, the log warns about a
    topic at most once, and once about a reported topic. *)
Theorem stuck_topic_is_reported_once g st t data :
  NoDup (topic_data st).*1 →
  (t, data) ∈ topic_data st →
  received data = false →
  let st' := (analyze_results g st).1 in
  let stuck := (t ∉ ignore_topics st) ∧ length (publishers data) = 1
               ∧ (t ∉ reported_topics st) in
  (stuck →
     stuck_warnings t (logged st') = stuck_warnings t (logged st) + 1
     ∧ t ∈ (classify_all st).1
     ∧ t ∈ reported_topics st')
  ∧ (¬ stuck →
     stuck_warnings t (logged st') = stuck_warnings t (logged st)
     ∧ (t ∉ (classify_all st).1)
     ∧ (t ∈ reported_topics st' → t ∈ reported_topics st))
  ∧ (Inv st →
     (∀ ops', stuck_warnings t (logged (run ops' st')) ≤ 1)
     ∧ (∀ ops', t ∈ reported_topics st' →
                stuck_warnings t (logged (run ops' st')) = 1)).
Proof.
  intros Hnd Hin Hrec st' stuck.
  assert (reportable st (topic_data st) t ↔ stuck) as Hrep.
  { split.
    - intros (d & Hd & _ & ? & ? & ?).
      apply (elem_dict_get _ _ _ Hnd) in Hd, Hin.
      assert (d = data) as -> by congruence. done.
    - intros (? & ? & ?). by exists data. }
  destruct (classify_fold_stuck (topic_data st) Hnd [] st t)
    as (Hlist & Hreported & Hwarned & Hquiet).
  fold (classify_all st) in Hlist, Hreported, Hwarned, Hquiet.
  cbn zeta in *. rewrite Hrep in Hlist, Hreported, Hwarned, Hquiet.
  subst st'. rewrite analyze_results_reported, analyze_results_stuck_warnings.
  split_and!.
  - intros Hstuck. split_and!; [by apply Hwarned|apply Hlist|apply Hreported]; auto.
  - intros Hnot. split_and!; [by apply Hquiet| |].
    + intros [?%elem_of_nil|?]%Hlist; done.
    + intros [?|?]%Hreported; done.
  - intros Hinv.
    assert (Inv (analyze_results g st).1) as Hinv' by by apply Inv_analyze_results.
    split.
    + intros ops'. rewrite (inv_warned _ (Inv_run ops' _ Hinv')). case_decide; lia.
    + intros ops' Hr. rewrite (inv_warned _ (Inv_run ops' _ Hinv')).
      rewrite decide_True; [done|].
      apply (ev_reported _ _ (evolves_run ops' _)).
      by rewrite analyze_results_reported.
Qed.

(** * The scenarios, evaluated *)



Section scenarios.
Local Open Scope string_scope.
Import Scenario.

(** C1 on [g_b]: [control_cmd] has one publisher and no message.  The node
    that ignores it writes no warning about it and does not report it; the
    node that does not ignore it reports it, once. *)
Lemma stuck_topic_is_reported_once_witness :
  (NoDup (topic_data ignored_cmd).*1
   ∧ (control_cmd, silent_once) ∈ topic_data ignored_cmd
   ∧ received silent_once = false
   ∧ control_cmd ∈ ignore_topics ignored_cmd
   ∧ length (publishers silent_once) = 1%nat
   ∧ (control_cmd ∉ reported_topics ignored_cmd)
   ∧ stuck_warnings control_cmd (logged (analyze_results g_b ignored_cmd).1)
     = stuck_warnings control_cmd (logged ignored_cmd)
   ∧ (control_cmd ∉ (classify_all ignored_cmd).1)
   ∧ (control_cmd ∉ reported_topics (analyze_results g_b ignored_cmd).1))
  ∧ (NoDup (topic_data (observed g_b)).*1
     ∧ (control_cmd, silent_once) ∈ topic_data (observed g_b)
     ∧ stuck_warnings control_cmd (logged (analyze_results g_b (observed g_b)).1)
       = (stuck_warnings control_cmd (logged (observed g_b)) + 1)%nat
     ∧ control_cmd ∈ reported_topics (analyze_results g_b (observed g_b)).1
     ∧ ∀ ops', (stuck_warnings control_cmd
                  (logged (run ops' (analyze_results g_b (observed g_b)).1))
                ≤ 1)%nat).
Proof.
  assert (received silent_once = false) as Hsilent by reflexivity.
  split.
  - assert (NoDup (topic_data ignored_cmd).*1) as Hnd by by_evaluation.
    assert ((control_cmd, silent_once) ∈ topic_data ignored_cmd) as Hin
      by by_evaluation.
    assert (control_cmd ∈ ignore_topics ignored_cmd) as Hignored by by_evaluation.
    assert (control_cmd ∉ reported_topics ignored_cmd) as Hnew by by_evaluation.
    destruct (stuck_topic_is_reported_once g_b ignored_cmd control_cmd
                silent_once Hnd Hin Hsilent) as (_ & Hquiet & _).
    destruct Hquiet as (Hlog & Hlist & Hreported).
    { intros (Hnot & _). exact (Hnot Hignored). }
    split; [exact Hnd|]. split; [exact Hin|]. split; [exact Hsilent|].
    split; [exact Hignored|]. split; [reflexivity|]. split; [exact Hnew|].
    split; [exact Hlog|]. split; [exact Hlist|].
    intros Hr. exact (Hnew (Hreported Hr)).
  - assert (NoDup (topic_data (observed g_b)).*1) as Hnd by by_evaluation.
    assert ((control_cmd, silent_once) ∈ topic_data (observed g_b)) as Hin
      by by_evaluation.
    destruct (stuck_topic_is_reported_once g_b (observed g_b) control_cmd
                silent_once Hnd Hin Hsilent) as (Hstuck & _ & Hlater).
    destruct Hstuck as (Hwarned & _ & Hreported); [by_evaluation|].
    destruct Hlater as (Honce & _); [apply Inv_run, Inv_init|].
    split; [exact Hnd|]. split; [exact Hin|]. split; [exact Hwarned|].
    split; [exact Hreported|exact Honce].
Defined.

(** C2 as stated fails on [g_b]: [/b] has no publisher and was never
    checked; the tracer logs the error and adds [/b] to
    [topics_to_check_next_round] all the same, [analyze_results] starts a
    second round, and that round subscribes to [/b]. *)
Lemma lead_without_publishers_enters_next_round :
  let st := observed g_b in
  let st' := (analyze_topic_connections g_b control_cmd st).1 in
  dict_get control_cmd (topic_data st) = Some silent_once
  ∧ control_cmd ∈ (classify_all st).1
  ∧ ("/b", ["std_msgs/msg/String"])
      ∈ get_subscriber_names_and_types_by_node g_b "N1" "/"
  ∧ get_publishers_info_by_topic g_b "/b" = []
  ∧ ("/b" ∉ checked_topics st)
  ∧ ErrorNoPublishers "N1" "/b" ∈ logged st'
  ∧ "/b" ∈ topics_to_check_next_round st'
  ∧ analyze_results g_b st
    = (take_next_round
         (emit (InfoNextRound ["/b"]) (after_tracing g_b st)), NextRound)
  ∧ important_topics (analyze_results g_b st).1 = ["/b"]
  ∧ "/b" ∈ sub_topic <$>
             subscriptions (check_topics 1 [quiet g_b; quiet g_b] (init lib)).1.
Proof.
  cbn zeta. split_and!; try by_evaluation; vm_compute; reflexivity.
Qed.

(** C2 as the code has it, on [g_b]. *)
Lemma lead_without_publishers_witness :
  let st := observed g_b in
  let st' := (analyze_topic_connections g_b control_cmd st).1 in
  dict_get control_cmd (topic_data st) = Some silent_once
  ∧ ("N1", "/") ∈ publishers silent_once
  ∧ ("/b", ["std_msgs/msg/String"])
      ∈ get_subscriber_names_and_types_by_node g_b "N1" "/"
  ∧ ("/b" ∉ ignore_topics st)
  ∧ get_publishers_info_by_topic g_b "/b" = []
  ∧ ErrorNoPublishers "N1" "/b" ∈ logged st'
  ∧ "/b" ∈ topics_to_check_next_round st'.
Proof.
  cbn zeta.
  assert (dict_get control_cmd (topic_data (observed g_b)) = Some silent_once)
    as H1 by (vm_compute; reflexivity).
  assert (("N1", "/") ∈ publishers silent_once) as H2 by by_evaluation.
  assert (("/b", ["std_msgs/msg/String"])
            ∈ get_subscriber_names_and_types_by_node g_b "N1" "/") as H3
    by by_evaluation.
  assert ("/b" ∉ ignore_topics (observed g_b)) as H4 by by_evaluation.
  assert (get_publishers_info_by_topic g_b "/b" = []) as H5 by reflexivity.
  destruct (lead_without_publishers g_b (observed g_b) control_cmd silent_once
              "N1" "/" "/b" ["std_msgs/msg/String"] H1 H2 H3 H4 H5)
    as [Herror Hfrontier].
  split_and!; [exact H1|exact H2|exact H3|exact H4|exact H5|exact Herror|].
  apply Hfrontier. right. split; [vm_compute; reflexivity|by_evaluation].
Defined.


(** C4.  The first important topic has no type in the graph: [check_topic]
    returns before it creates the observation, the topic stays in
    [important_topics], and [finish_check] raises a [KeyError] at
    [self.topic_data[topic]] instead of storing the publishers;
    [check_completed] is not set and [check_topics] waits for ever. *)
Theorem finish_check_raises_after_type_failure :
  let st := check_topics_begin g_untyped (init lib) in
  resolve_msg_class g_untyped control_cmd = inl (WarnNoType control_cmd)
  ∧ control_cmd ∈ important_topics st
  ∧ dict_get control_cmd (topic_data st) = None
  ∧ (finish_check g_untyped st).2 = Some (KeyError control_cmd)
  ∧ check_completed (finish_check g_untyped st).1 = false
  ∧ (check_topics 1 [quiet g_untyped] (init lib)).2 = Blocked (KeyError control_cmd).
Proof.
  cbn zeta. split_and!; try by_evaluation; vm_compute; reflexivity.
Qed.

(** C5 as stated fails on [g_b]: a topic with no message and no publisher
    is not stuck, and [analyze_results] logs nothing about it. *)
Lemma silent_topic_gets_no_unexpected_warning :
  let st := observed g_b in
  let st' := (analyze_results g_b st).1 in
  dict_get turn_indicators (topic_data st)
  = Some {| received := false; publishers := []; last_received := None |}
  ∧ (turn_indicators ∉ (classify_all st).1)
  ∧ (WarnUnexpected turn_indicators ∉ logged st')
  ∧ Forall (λ e, log_topic e ≠ Some turn_indicators) (logged st').
Proof.
  cbn zeta. split_and!; try by_evaluation; vm_compute; reflexivity.
Qed.

(** C6 on [g_b], where the tracer finds [/b], and on [g_silent], where it
    finds nothing. *)
Lemma next_round_from_frontier_witness :
  topics_to_check_next_round (after_tracing g_b (observed g_b)) ≠ ∅
  ∧ (analyze_results g_b (observed g_b)).2 = NextRound
  ∧ occurrences "/b" (important_topics (analyze_results g_b (observed g_b)).1) = 1
  ∧ topics_to_check_next_round (after_tracing g_silent (observed g_silent)) = ∅
  ∧ ∀ again, resume again (analyze_results g_silent (observed g_silent))
             = (after_tracing g_silent (observed g_silent), Returned).
Proof.
  assert (topics_to_check_next_round (after_tracing g_b (observed g_b)) ≠ ∅)
    as Hnext by by_evaluation.
  assert (topics_to_check_next_round (after_tracing g_silent (observed g_silent))
          = ∅) as Hstop by by_evaluation.
  destruct (next_round_from_frontier g_b (observed g_b)) as [Hround _].
  destruct (Hround Hnext) as (st' & Heq & _ & _ & _ & Honce & _).
  destruct (next_round_from_frontier g_silent (observed g_silent)) as [_ Hreturn].
  split_and!; [exact Hnext| | |exact Hstop|exact (Hreturn Hstop)].
  - rewrite Heq. reflexivity.
  - rewrite Heq. apply Honce. by_evaluation.
Defined.

(** C7 on [g_b]: the subscription on the topic that [N1] publishes has the
    profile of [N1]. *)
Lemma subscription_profile_witness :
  resolve_msg_class g_b control_cmd = inr String_class
  ∧ ∃ qos,
      subscriptions (check_topic g_b control_cmd (init lib))
      = [{| sub_msg_class := String_class; sub_topic := control_cmd;
            sub_qos := qos |}]
      ∧ durability qos = DUR_TRANSIENT_LOCAL
      ∧ reliability qos = REL_RELIABLE
      ∧ history qos = HIST_KEEP_LAST
      ∧ depth qos = 10%Z.
Proof.
  assert (resolve_msg_class g_b control_cmd = inr String_class) as Hres
    by (vm_compute; reflexivity).
  split; [exact Hres|].
  destruct (subscription_profile lib [] g_b control_cmd String_class Hres)
    as (qos & Hsub & Hd & Hr & Hh & Hdepth & _).
  exists qos. split_and!; [exact Hsub|exact Hd|exact Hr|exact Hh|exact Hdepth].
Defined.

(** C8 on [g_fan]: of the two topics that [N1] subscribes to, [/tf] with
    its three publishers is passed over and [/b] is not. *)
Lemma fan_in_topic_is_skipped_witness :
  let st' := (analyze_topic_connections g_fan control_cmd (observed g_fan)).1 in
  (2 < length (get_publishers_info_by_topic g_fan "/tf"))%nat
  ∧ ("/tf" ∉ topics_to_check_next_round st')
  ∧ "/b" ∈ topics_to_check_next_round st'.
Proof.
  cbn zeta.
  assert (2 < length (get_publishers_info_by_topic g_fan "/tf"))%nat as Hmany
    by by_evaluation.
  destruct (fan_in_topic_is_skipped g_fan (observed g_fan) control_cmd "/tf" Hmany)
    as (_ & _ & Hsame).
  split_and!; [exact Hmany| |by_evaluation].
  intros Hin%Hsame. revert Hin. by_evaluation.
Defined.

End scenarios.

(** * Further properties of the operations *)

(** ** [get_topic_type] *)

Lemma first_type_Some l t ty :
  first_type l t = Some ty
  ↔ ∃ l1 types l2, l = l1 ++ (t, ty :: types) :: l2
                   ∧ ∀ types', (t, types') ∈ l1 → types' = [].
Proof.
  induction l as [|[t0 types0] l IH]; cbn [first_type].
  { split; [done|]. intros ([|? ?] & ? & ? & ? & _); done. }
  destruct (String.eqb_spec t0 t) as [->|Hne]; [destruct types0 as [|ty0 types0]|];
    cbn [andb negb head].
  - rewrite bool_decide_eq_true_2 by done. cbn [negb]. rewrite IH. split.
    + intros (l1 & types & l2 & -> & Hl1). exists ((t, []) :: l1), types, l2.
      split; [done|]. intros types' [[= ->]|?]%elem_of_cons; [done|by apply Hl1].
    + intros ([|x l1] & types & l2 & Heq & Hl1); simplify_eq/=.
      exists l1, types, l2. split; [done|]. intros types' ?. apply Hl1.
      apply elem_of_cons. by right.
  - rewrite bool_decide_eq_false_2 by done. cbn [negb]. split.
    + intros [= ->]. exists [], types0, l. split; [done|]. by intros ? ?%elem_of_nil.
    + intros ([|x l1] & types & l2 & Heq & Hl1); simplify_eq/=; [done|].
      assert (ty0 :: types0 = []) by (apply Hl1, elem_of_cons; by left). done.
  - rewrite IH. split.
    + intros (l1 & types & l2 & -> & Hl1). exists ((t0, types0) :: l1), types, l2.
      split; [done|]. intros types' [[= -> ->]|?]%elem_of_cons; [done|by apply Hl1].
    + intros ([|x l1] & types & l2 & Heq & Hl1); simplify_eq/=.
      exists l1, types, l2. split; [done|]. intros types' ?. apply Hl1.
      apply elem_of_cons. by right.
Qed.

Lemma first_type_None l t :
  first_type l t = None ↔ ∀ types, (t, types) ∈ l → types = [].
Proof.
  induction l as [|[t0 types0] l IH]; cbn [first_type].
  { split; [|done]. by intros _ ? ?%elem_of_nil. }
  destruct (String.eqb_spec t0 t) as [->|Hne]; [destruct types0 as [|ty0 types0]|];
    cbn [andb negb head].
  - rewrite bool_decide_eq_true_2 by done. cbn [negb]. rewrite IH. split.
    + intros Hl types [[= ->]|?]%elem_of_cons; [done|by apply Hl].
    + intros Hl types ?. apply Hl, elem_of_cons. by right.
  - rewrite bool_decide_eq_false_2 by done. cbn [negb]. split; [done|].
    intros Hl. assert (ty0 :: types0 = []) by (apply Hl, elem_of_cons; by left).
    done.
  - rewrite IH. split.
    + intros Hl types [[= -> ->]|?]%elem_of_cons; [done|by apply Hl].
    + intros Hl types ?. apply Hl, elem_of_cons. by right.
Qed.

(** X1. [get_topic_type] answers the first type of the first entry of the
    topic that has a type, passing over entries of the topic with an empty
    list of types; it answers [None] exactly when no entry of the topic has
    a type. *)
Theorem get_topic_type_first_typed_entry g t :
  (∀ ty, get_topic_type g t = Some ty
         ↔ ∃ before types after,
             get_topic_names_and_types g
             = before ++ (t, ty :: types) :: after
             ∧ ∀ types', (t, types') ∈ before → types' = [])
  ∧ (get_topic_type g t = None
     ↔ ∀ types, (t, types) ∈ get_topic_names_and_types g → types = []).
Proof. split; [intros ty; apply first_type_Some|apply first_type_None]. Qed.

(** ** The type descriptor in [check_topic] *)

Lemma split_slash_length s : length (split_slash s) = S (count_slash s).
Proof.
  induction s as [|c s IH]; [done|]. cbn [split_slash count_slash].
  destruct (Ascii.eqb c "/"); simpl; [by rewrite IH|].
  destruct (split_slash s); [done|]. simpl in *. lia.
Qed.

Lemma split_slash_plain s : count_slash s = 0 → split_slash s = [s].
Proof.
  induction s as [|c s IH]; [done|]. cbn [split_slash count_slash].
  destruct (Ascii.eqb c "/"); [done|]. intros Hs. by rewrite IH.
Qed.

Lemma split_slash_append a rest :
  count_slash a = 0 →
  split_slash (String.append a (String "/" rest)) = a :: split_slash rest.
Proof.
  induction a as [|c a IH]; simpl.
  { intros _. reflexivity. }
  destruct (Ascii.eqb c "/"); [done|]. intros Ha. by rewrite IH.
Qed.

Lemma split_slash_inv s p ps :
  split_slash s = p :: ps →
  count_slash p = 0
  ∧ ((ps = [] ∧ s = p)
     ∨ ∃ rest, s = String.append p (String "/" rest) ∧ split_slash rest = ps).
Proof.
  revert p ps. induction s as [|c s IH]; intros p ps; cbn [split_slash].
  { intros [= <- <-]. split; [done|]. by left. }
  destruct (Ascii.eqb_spec c "/") as [->|Hc].
  - intros [= <- <-]. split; [done|]. right. by exists s.
  - destruct (split_slash s) as [|p' ps'] eqn:Hs.
    { pose proof (split_slash_length s) as Hl. by rewrite Hs in Hl. }
    intros [= <- <-]. destruct (IH p' ps' eq_refl) as [Hp' Hcases].
    split.
    + cbn [count_slash]. destruct (Ascii.eqb_spec c "/"); [done|]. done.
    + destruct Hcases as [[-> ->]|(rest & -> & <-)]; [by left|].
      right. by exists rest.
Qed.

Lemma split_slash_descriptor ty package middle name :
  split_slash ty = [package; middle; name]
  ↔ ty = descriptor package middle name
    ∧ count_slash package = 0 ∧ count_slash middle = 0 ∧ count_slash name = 0.
Proof.
  split.
  - intros (Hp & [[? _]|(r1 & -> & H1)])%split_slash_inv; [done|].
    apply split_slash_inv in H1 as (Hm & [[? _]|(r2 & -> & H2)]); [done|].
    apply split_slash_inv in H2 as (Hn & [[_ ->]|(r3 & _ & H3)]); [done|].
    pose proof (split_slash_length r3) as Hl. by rewrite H3 in Hl.
  - intros (-> & Hp & Hm & Hn). unfold descriptor.
    by rewrite !split_slash_append, split_slash_plain.
Qed.

(** X2. The import of a message class fails with [ValueError] exactly when
    the type descriptor does not have two ["/"]: the split must give three
    parts to unpack. *)
Theorem import_value_error_iff_not_two_slashes g msg_type :
  import_msg_class g msg_type = inl ValueError ↔ count_slash msg_type ≠ 2.
Proof.
  unfold import_msg_class. pose proof (split_slash_length msg_type) as Hl.
  destruct (split_slash msg_type) as [|a [|b [|c [|d l]]]]; simpl in Hl;
    try (split; [intros _; lia|done]).
  split; [|lia]. destruct (import_module g _); [case_bool_decide|]; done.
Qed.

(** X3. [check_topic] finds a message class for a descriptor exactly when
    it is [package/middle/name] with no ["/"] inside the three parts, the
    module [package.msg] imports and has the attribute [name]; the class is
    that attribute, and the middle part plays no role. *)
Theorem import_succeeds_iff g msg_type msg_class :
  import_msg_class g msg_type = inr msg_class
  ↔ ∃ package middle name attributes,
      msg_type = descriptor package middle name
      ∧ count_slash package = 0 ∧ count_slash middle = 0
      ∧ count_slash name = 0
      ∧ import_module g (String.append package ".msg") = Some attributes
      ∧ name ∈ attributes
      ∧ msg_class = {| msg_module := String.append package ".msg";
                       msg_name := name |}.
Proof.
  split.
  - unfold import_msg_class.
    destruct (split_slash msg_type) as [|a [|b [|c [|d l]]]] eqn:Hsplit; try done.
    apply split_slash_descriptor in Hsplit as (-> & ? & ? & ?).
    destruct (import_module g _) as [attributes|] eqn:Himp; [|done].
    case_bool_decide; [|done]. intros [= <-]. by exists a, b, c, attributes.
  - intros (a & b & c & attributes & -> & Ha & Hb & Hc & Himp & Hin & ->).
    unfold import_msg_class.
    rewrite (proj2 (split_slash_descriptor _ a b c)) by done.
    by rewrite Himp, bool_decide_eq_true_2.
Qed.

(** ** Subscriptions and observations *)

Lemma subscriptions_topic_callback t now st :
  subscriptions (topic_callback t now st).1 = subscriptions st.
Proof. unfold topic_callback. by destruct (dict_get t (topic_data st)). Qed.

Lemma subscriptions_finish_check_loop g topics st :
  subscriptions (finish_check_loop g topics st).1 = subscriptions st.
Proof.
  revert st. induction topics as [|t topics IH]; intros st; [done|]. simpl.
  destruct (dict_get t (topic_data st)); [|done]. by rewrite IH.
Qed.

Lemma subscriptions_finish_check g st :
  subscriptions (finish_check g st).1 = subscriptions st.
Proof.
  unfold finish_check.
  pose proof (subscriptions_finish_check_loop g (important_topics st) st) as Hl.
  by destruct (finish_check_loop g (important_topics st) st) as [st' [e|]].
Qed.

Lemma subscriptions_after_tracing g st :
  subscriptions (after_tracing g st) = subscriptions st.
Proof.
  destruct (classify_all_frame st) as ([] & _).
  destruct (traced_after_tracing g st). congruence.
Qed.

Lemma subscriptions_analyze_results g st :
  subscriptions (analyze_results g st).1 = subscriptions st.
Proof.
  rewrite analyze_results_unfold.
  case_bool_decide; simpl; apply subscriptions_after_tracing.
Qed.

Lemma mirror_check_topics_step g st t :
  Inv st →
  sub_topic <$> subscriptions st = (topic_data st).*1 →
  sub_topic <$> subscriptions (check_topics_step g st t)
  = (topic_data (check_topics_step g st t)).*1.
Proof.
  intros Hinv Hm. unfold check_topics_step. case_bool_decide as Hnew; [|done].
  unfold check_topic. destruct (resolve_msg_class g t); [done|]. simpl.
  rewrite fmap_app, Hm, dict_set_keys, decide_False; [done|].
  intros ?. by apply Hnew, (inv_checked _ Hinv).
Qed.

Lemma mirror_exec st op :
  Inv st →
  sub_topic <$> subscriptions st = (topic_data st).*1 →
  sub_topic <$> subscriptions (exec st op) = (topic_data (exec st op)).*1.
Proof.
  intros Hinv Hm. destruct op; simpl.
  - unfold check_topics_begin.
    apply (fold_left_preserves
             (λ s, Inv s ∧ sub_topic <$> subscriptions s = (topic_data s).*1)).
    + split; [by apply Inv_set_check_completed|done].
    + intros s t _ [? ?]. split; [by apply Inv_check_topics_step|].
      by apply mirror_check_topics_step.
  - destruct (subscribed topic st); [|done].
    by rewrite subscriptions_topic_callback, keys_topic_callback.
  - by rewrite subscriptions_finish_check, keys_finish_check.
  - by rewrite subscriptions_analyze_results, topic_data_analyze_results.
Qed.

(** X4. In every state reached from the initial one, the topics of the
    node's subscriptions are the keys of [topic_data], in the same order: one
    subscription per observed topic, none twice, also when
    [important_topics] names a topic twice. *)
Theorem one_subscription_per_observation lib ops :
  let st := run ops (init lib) in
  sub_topic <$> subscriptions st = (topic_data st).*1
  ∧ NoDup (sub_topic <$> subscriptions st).
Proof.
  intros st.
  assert (Inv st ∧ sub_topic <$> subscriptions st = (topic_data st).*1)
    as [Hinv Hm].
  { apply (fold_left_preserves
             (λ s, Inv s ∧ sub_topic <$> subscriptions s = (topic_data s).*1)).
    - split; [apply Inv_init|done].
    - intros s op _ [? ?]. split; [by apply Inv_exec|by apply mirror_exec]. }
  split; [done|]. rewrite Hm. apply (inv_nodup _ Hinv).
Qed.

(** ** A second pass of [check_topics] *)

Lemma important_topics_check_topics_step g st t :
  important_topics (check_topics_step g st t) = important_topics st
  ∧ check_completed (check_topics_step g st t) = check_completed st.
Proof.
  unfold check_topics_step. case_bool_decide; [|done].
  unfold check_topic. by destruct (resolve_msg_class g t).
Qed.

Lemma important_topics_check_topics_begin g st :
  important_topics (check_topics_begin g st) = important_topics st
  ∧ check_completed (check_topics_begin g st) = false.
Proof.
  unfold check_topics_begin.
  apply (fold_left_preserves
           (λ s, important_topics s = important_topics st
                 ∧ check_completed s = false)); [done|].
  intros s t _ [? ?].
  destruct (important_topics_check_topics_step g s t). split; congruence.
Qed.



(** ** Message delivery *)

Lemma deliver_returns st m : Inv st → (deliver st m).2 = None.
Proof.
  intros Hinv. destruct m as [t now]. simpl. unfold subscribed.
  case_bool_decide as Hs; [|done]. unfold topic_callback.
  apply (inv_subscribed _ Hinv), dict_get_is_Some in Hs as [data ->]. done.
Qed.

Lemma deliver_all_returns messages st :
  Inv st → (deliver_all messages st).2 = None.
Proof.
  revert st. induction messages as [|m messages IH]; intros st Hinv; [done|].
  simpl. pose proof (deliver_returns st m Hinv) as Hm.
  pose proof (Inv_deliver st m Hinv) as Hinv'.
  destruct (deliver st m) as [st' [e|]]; [done|]. by apply IH.
Qed.

(** X6. In every state reached from the initial one, the delivery of
    messages raises nothing: the node has a subscription only on topics that
    have an observation.  A message on a subscribed topic makes its
    observation received at the time of the message and keeps its
    publishers; the observations of the other topics are untouched; a
    message on a topic without subscription changes nothing. *)
Theorem delivery_updates_one_observation lib ops t now :
  let st := run ops (init lib) in
  (∀ messages, (deliver_all messages st).2 = None)
  ∧ (∀ t', t' ≠ t →
       dict_get t' (topic_data (deliver st (t, now)).1)
       = dict_get t' (topic_data st))
  ∧ (∀ data, dict_get t (topic_data st) = Some data →
       dict_get t (topic_data (deliver st (t, now)).1)
       = Some {| received := true; publishers := publishers data;
                 last_received := Some now |})
  ∧ (dict_get t (topic_data st) = None → deliver st (t, now) = (st, None)).
Proof.
  intros st. assert (Inv st) as Hinv by apply Inv_run, Inv_init.
  split_and!.
  - intros messages. by apply deliver_all_returns.
  - intros t' Hne. simpl. destruct (subscribed t st); [|done].
    unfold topic_callback. destruct (dict_get t (topic_data st)); [|done].
    simpl. by rewrite dict_get_set_ne.
  - intros data Hget. simpl. unfold subscribed.
    rewrite bool_decide_eq_true_2.
    + unfold topic_callback. rewrite Hget. simpl. by rewrite dict_get_set_eq.
    + apply (inv_subscribed _ Hinv), dict_get_is_Some. eauto.
  - intros Hnone. simpl. unfold subscribed. rewrite bool_decide_eq_false_2; [done|].
    intros Hs%(inv_subscribed _ Hinv). by apply dict_get_None in Hnone.
Qed.

(** ** [finish_check], in general *)

Lemma finish_check_loop_app g l1 l2 st :
  finish_check_loop g (l1 ++ l2) st
  = match finish_check_loop g l1 st with
    | (st', None) => finish_check_loop g l2 st'
    | (st', Some e) => (st', Some e)
    end.
Proof.
  revert st. induction l1 as [|t l1 IH]; intros st; [done|]. simpl.
  destruct (dict_get t (topic_data st)); [apply IH|done].
Qed.

Lemma check_completed_finish_check_loop g topics st :
  check_completed (finish_check_loop g topics st).1 = check_completed st.
Proof.
  revert st. induction topics as [|t topics IH]; intros st; [done|]. simpl.
  destruct (dict_get t (topic_data st)); [|done]. by rewrite IH.
Qed.

(** X7. Where every topic of [important_topics] has an observation,
    [finish_check] raises nothing and sets [check_completed]; the
    observation of each of these topics gets the (name, namespace) pairs of
    the publishers the graph has for it and keeps [received] and
    [last_received]; the other observations and the order of the keys are as
    before. *)
Theorem finish_check_stores_publishers g st :
  (∀ t, t ∈ important_topics st → t ∈ (topic_data st).*1) →
  let st' := (finish_check g st).1 in
  (finish_check g st).2 = None
  ∧ check_completed st' = true
  ∧ (topic_data st').*1 = (topic_data st).*1
  ∧ (∀ t data, t ∈ important_topics st →
       dict_get t (topic_data st) = Some data →
       dict_get t (topic_data st')
       = Some {| received := received data;
                 publishers :=
                   map (λ p, (node_name p, node_namespace p))
                       (get_publishers_info_by_topic g t);
                 last_received := last_received data |})
  ∧ (∀ t, t ∉ important_topics st →
       dict_get t (topic_data st') = dict_get t (topic_data st)).
Proof.
  intros Hall st'. subst st'.
  pose proof (keys_finish_check g st) as Hkeys. unfold finish_check in *.
  destruct (finish_check_loop_stores g (important_topics st) st Hall) as [Hok Hst].
  destruct (finish_check_loop g (important_topics st) st) as [st' [e|]];
    [done|]. cbn [fst snd] in *.
  split_and!; try done.
  - intros t data Hin Hget. simpl. by rewrite Hst, decide_True, Hget.
  - intros t Hout. simpl. by rewrite Hst, decide_False.
Qed.

(** X8. [finish_check] raises the [KeyError] of the first topic of
    [important_topics] that has no observation.  [check_completed] is left
    as it was, the topics before that one have their publishers stored
    already, and no key is added. *)
Theorem finish_check_raises_at_first_untracked g st before t after :
  important_topics st = before ++ t :: after →
  (∀ t', t' ∈ before → t' ∈ (topic_data st).*1) →
  t ∉ (topic_data st).*1 →
  let st' := (finish_check g st).1 in
  (finish_check g st).2 = Some (KeyError t)
  ∧ check_completed st' = check_completed st
  ∧ (topic_data st').*1 = (topic_data st).*1
  ∧ (∀ t' data, t' ∈ before →
       dict_get t' (topic_data st) = Some data →
       publishers <$> dict_get t' (topic_data st')
       = Some (map (λ p, (node_name p, node_namespace p))
                   (get_publishers_info_by_topic g t'))).
Proof.
  intros Himp Hbefore Hun st'. subst st'.
  pose proof (keys_finish_check g st) as Hkeys.
  pose proof (check_completed_finish_check_loop g before st) as Hc.
  pose proof (keys_finish_check_loop g before st) as Hk.
  unfold finish_check in *. rewrite Himp in *. rewrite finish_check_loop_app in *.
  destruct (finish_check_loop_stores g before st Hbefore) as [Hok Hst].
  destruct (finish_check_loop g before st) as [st1 [e|]]; [done|].
  cbn [fst snd finish_check_loop] in *.
  assert (dict_get t (topic_data st1) = None) as ->.
  { apply dict_get_None. by rewrite Hk. }
  cbn [fst snd]. split_and!; try done.
  intros t' data Hin Hget. by rewrite Hst, decide_True, Hget.
Qed.

(** ** [analyze_results], in general *)

(** X9. [analyze_topic_connections] raises a [KeyError] (line 180)
    exactly for a topic without observation.  The second loop of
    [analyze_results] calls it for the stuck topics of the first, which are
    keys of [topic_data], so it raises for none of them: no [KeyError]
    leaves lines 148 to 176, whatever the state and the graph.  The call of
    line 177 is not part of this: what leaves the nested [check_topics] is
    in [check_topics]. *)
Theorem analysis_loops_raise_no_key_error g st :
  (∀ t, (analyze_topic_connections g t st).2 = None ↔ t ∈ (topic_data st).*1)
  ∧ (∀ t, t ∉ (topic_data st).*1 →
          analyze_topic_connections g t st = (st, Some (KeyError t)))
  ∧ (∀ t, t ∈ (classify_all st).1 → t ∈ (topic_data (classify_all st).2).*1)
  ∧ (trace_all g (classify_all st).1 (classify_all st).2).2 = None
  ∧ ∀ t, (analyze_results g st).2 ≠ Raise (KeyError t).
Proof.
  destruct (classify_all_frame st) as (Hcl & _ & Hkeys).
  assert (∀ t, t ∈ (classify_all st).1 → t ∈ (topic_data (classify_all st).2).*1)
    as Hstuck.
  { intros t Ht. rewrite (cl_data _ _ Hcl). by apply Hkeys. }
  split_and!.
  - intros t. rewrite <- dict_get_is_Some. unfold analyze_topic_connections.
    destruct (dict_get t (topic_data st)); simpl.
    + split; eauto.
    + split; [done|]. by intros [? ?].
  - intros t Hun%dict_get_None. unfold analyze_topic_connections. by rewrite Hun.
  - exact Hstuck.
  - by apply trace_all_returns.
  - intros t. rewrite analyze_results_unfold. by case_bool_decide.
Qed.

Lemma logged_classify_all st : ∃ new, logged (classify_all st).2 = logged st ++ new.
Proof.
  unfold classify_all.
  apply (fold_left_preserves (λ acc, ∃ new, logged acc.2 = logged st ++ new)).
  { exists []. by rewrite app_nil_r. }
  intros [acc s] [t d] _ [new Hnew]. cbn [snd] in *.
  destruct (classify_specP acc s t d); simpl; rewrite ?Hnew, <- ?app_assoc; eauto.
Qed.

(** X10. Lines 148 to 176 of [analyze_results], that is the method up to
    its nested call of [check_topics] in line 177, create no subscription
    and leave the observations, [checked_topics], [ignore_topics], the
    default profile and [check_completed] as they are; they only append to
    the log and add to [reported_topics] (and set up the next round).  The
    nested round of line 177 does subscribe and does clear
    [check_completed]: that is [check_topics_begin]. *)
Theorem analyze_results_frame g st :
  let st' := (analyze_results g st).1 in
  topic_data st' = topic_data st
  ∧ subscriptions st' = subscriptions st
  ∧ checked_topics st' = checked_topics st
  ∧ ignore_topics st' = ignore_topics st
  ∧ default_qos_profile st' = default_qos_profile st
  ∧ check_completed st' = check_completed st
  ∧ reported_topics st ⊆ reported_topics st'
  ∧ ∃ new, logged st' = logged st ++ new.
Proof.
  destruct (classify_all_frame st) as ([] & _).
  destruct (traced_after_tracing g st)
    as [? ? Hdata ? Hchecked Hreported ? Hsubs (new2 & Hlog2 & _) ? ?].
  destruct (logged_classify_all st) as [new1 Hlog1].
  assert (logged (after_tracing g st) = logged st ++ (new1 ++ new2)) as Hlog.
  { by rewrite Hlog2, Hlog1, app_assoc. }
  assert (reported_topics st ⊆ reported_topics (after_tracing g st)) as Hsub.
  { by rewrite Hreported. }
  cbn zeta. rewrite analyze_results_unfold.
  case_bool_decide; simpl; split_and!; try congruence; try exact Hsub.
  - eexists. by rewrite Hlog, <- app_assoc.
  - by eexists.
Qed.

(** ** Ignored topics *)

Lemma classify_all_ignored st t :
  t ∈ ignore_topics st →
  (t ∉ (classify_all st).1)
  ∧ (t ∈ reported_topics (classify_all st).2 → t ∈ reported_topics st)
  ∧ stuck_warnings t (logged (classify_all st).2) = stuck_warnings t (logged st).
Proof.
  intros Hi. unfold classify_all.
  apply (fold_left_preserves
           (λ acc, ignore_topics acc.2 = ignore_topics st
                   ∧ (t ∉ acc.1)
                   ∧ (t ∈ reported_topics acc.2 → t ∈ reported_topics st)
                   ∧ stuck_warnings t (logged acc.2)
                     = stuck_warnings t (logged st))).
  { split_and!; try done. apply not_elem_of_nil. }
  intros [acc s] [t0 d0] _ (Hig & Hacc & Hrep & Hsw). cbn [fst snd] in *.
  destruct (classify_specP acc s t0 d0) as [_ Hn _ _|_ _|_ _]; simpl;
    try done.
  - assert (t0 ≠ t) as Hne by (intros ->; by rewrite Hig in Hn).
    split_and!; [done| | |].
    + rewrite elem_of_app, list_elem_of_singleton. naive_solver.
    + rewrite elem_of_union, elem_of_singleton. naive_solver.
    + rewrite stuck_warnings_snoc. simpl.
      rewrite bool_decide_eq_false_2 by done. lia.
  - split_and!; try done. rewrite stuck_warnings_snoc. simpl. lia.
Qed.

(** X11. A topic of [ignore_topics] is passed over by [analyze_results]: it
    is not put in the list of stuck topics, not added to [reported_topics],
    not warned about as stuck, and not added to
    [topics_to_check_next_round] by the tracer. *)
Theorem ignored_topic_is_passed_over g st t :
  t ∈ ignore_topics st →
  let st' := (analyze_results g st).1 in
  (t ∉ (classify_all st).1)
  ∧ (t ∈ reported_topics st' → t ∈ reported_topics st)
  ∧ stuck_warnings t (logged st') = stuck_warnings t (logged st)
  ∧ (t ∈ topics_to_check_next_round (after_tracing g st) →
     t ∈ topics_to_check_next_round st).
Proof.
  intros Hi st'. subst st'.
  destruct (classify_all_ignored st t Hi) as (Hlist & Hrep & Hsw).
  rewrite analyze_results_reported, analyze_results_stuck_warnings.
  split_and!; try done.
  destruct (classify_all_frame st) as (Hcl & _).
  intros [Hold|(Hn & _)]%(tr_added _ _ _ (traced_after_tracing g st)).
  - by rewrite (cl_frontier _ _ Hcl) in Hold.
  - by rewrite (cl_ignore _ _ Hcl) in Hn.
Qed.

(** ** The topics of the next round *)

Lemma frontier_check_topics_begin g st :
  topics_to_check_next_round (check_topics_begin g st)
  = topics_to_check_next_round st.
Proof.
  unfold check_topics_begin.
  apply (fold_left_preserves
           (λ s, topics_to_check_next_round s = topics_to_check_next_round st));
    [done|].
  intros s t _ <-. unfold check_topics_step. case_bool_decide; [|done].
  unfold check_topic. by destruct (resolve_msg_class g t).
Qed.

Lemma frontier_deliver st m :
  topics_to_check_next_round (deliver st m).1 = topics_to_check_next_round st.
Proof.
  destruct m as [t now]. simpl. destruct (subscribed t st); [|done].
  unfold topic_callback. by destruct (dict_get t (topic_data st)).
Qed.

Lemma frontier_finish_check g st :
  topics_to_check_next_round (finish_check g st).1 = topics_to_check_next_round st.
Proof.
  unfold finish_check.
  assert (∀ topics s, topics_to_check_next_round (finish_check_loop g topics s).1
                      = topics_to_check_next_round s) as Hloop.
  { induction topics as [|t topics IH]; intros s; [done|]. simpl.
    destruct (dict_get t (topic_data s)); [|done]. by rewrite IH. }
  specialize (Hloop (important_topics st) st).
  by destruct (finish_check_loop g (important_topics st) st) as [st' [e|]].
Qed.

Lemma frontier_analyze_results g st :
  topics_to_check_next_round (analyze_results g st).1 = ∅.
Proof.
  rewrite analyze_results_unfold. case_bool_decide as Hne; [done|]. simpl.
  destruct (decide (topics_to_check_next_round (after_tracing g st) = ∅)); done.
Qed.

Lemma frontier_run lib ops : topics_to_check_next_round (run ops (init lib)) = ∅.
Proof.
  apply (fold_left_preserves (λ s, topics_to_check_next_round s = ∅)); [done|].
  intros s op _ Hs. destruct op; cbn [exec].
  - by rewrite frontier_check_topics_begin.
  - by rewrite (frontier_deliver s (topic, now)).
  - by rewrite frontier_finish_check.
  - apply frontier_analyze_results.
Qed.

(** X12. [topics_to_check_next_round] is empty when [analyze_results] is
    left, in whatever state it was entered, and it is empty in every state
    reached from the initial one: the set only holds topics while
    [analyze_results] runs. *)
Theorem next_round_set_is_empty_between_operations lib ops g st :
  topics_to_check_next_round (analyze_results g st).1 = ∅
  ∧ topics_to_check_next_round (run ops (init lib)) = ∅.
Proof. split; [apply frontier_analyze_results|apply frontier_run]. Qed.

Lemma note_subscribed_topic_added t0 s t :
  t ∈ topics_to_check_next_round (note_subscribed_topic t0 s) →
  t ∈ topics_to_check_next_round s
  ∨ (t = t0 ∧ (t0 ∉ (topic_data s).*1) ∧ (t0 ∉ checked_topics s)).
Proof.
  unfold note_subscribed_topic.
  destruct (dict_get t0 (topic_data s)) eqn:Hget; [by left|].
  case_bool_decide; [|by left]. simpl.
  intros [?|Heq%elem_of_singleton]%elem_of_union; [by left|].
  right. split_and!; [done| |done]. by apply dict_get_None.
Qed.

Lemma trace_subscription_added g name s subscription t :
  t ∈ topics_to_check_next_round (trace_subscription g name s subscription) →
  t ∈ topics_to_check_next_round s
  ∨ (t = subscription.1 ∧ expandable g s t).
Proof.
  unfold trace_subscription. case_bool_decide as Hi; [by left|].
  case_bool_decide as Hzero; [|case_bool_decide as Hmany; [by left|]].
  - intros [?|(-> & ? & ?)]%note_subscribed_topic_added; [by left|].
    right. split; [done|]. split_and!; [done|lia|done..].
  - intros [?|(-> & ? & ?)]%note_subscribed_topic_added; [by left|].
    right. split; [done|]. split_and!; [done|lia|done..].
Qed.

Lemma trace_publisher_added g s name namespace t :
  t ∈ topics_to_check_next_round (trace_publisher g s (name, namespace)) →
  t ∈ topics_to_check_next_round s
  ∨ ((∃ types, (t, types)
                 ∈ get_subscriber_names_and_types_by_node g name namespace)
     ∧ expandable g s t).
Proof.
  simpl.
  apply (fold_left_preserves
           (λ s', traced g s s'
                  ∧ (t ∈ topics_to_check_next_round s' →
                     t ∈ topics_to_check_next_round s
                     ∨ ((∃ types, (t, types)
                           ∈ get_subscriber_names_and_types_by_node
                               g name namespace)
                        ∧ expandable g s t)))).
  { split; [apply traced_refl|by left]. }
  intros s' [t0 types0] Hin [Htr Hs']. split.
  - eapply traced_trans; [done|apply traced_trace_subscription].
  - intros [?|[-> Hexp]]%trace_subscription_added; [by apply Hs'|].
    right. split; [by exists types0|]. by apply (expandable_frame g s s').
Qed.

Lemma analyze_topic_connections_added g stuck_topic s t :
  t ∈ topics_to_check_next_round (analyze_topic_connections g stuck_topic s).1 →
  t ∈ topics_to_check_next_round s
  ∨ ∃ data name namespace types,
      dict_get stuck_topic (topic_data s) = Some data
      ∧ (name, namespace) ∈ publishers data
      ∧ (t, types) ∈ get_subscriber_names_and_types_by_node g name namespace
      ∧ expandable g s t.
Proof.
  unfold analyze_topic_connections.
  destruct (dict_get stuck_topic (topic_data s)) as [data|]; [|by left]. simpl.
  apply (fold_left_preserves
           (λ s', traced g s s'
                  ∧ (t ∈ topics_to_check_next_round s' →
                     t ∈ topics_to_check_next_round s
                     ∨ ∃ data' name namespace types,
                         Some data = Some data'
                         ∧ (name, namespace) ∈ publishers data'
                         ∧ (t, types)
                             ∈ get_subscriber_names_and_types_by_node
                                 g name namespace
                         ∧ expandable g s t))).
  { split; [apply traced_refl|by left]. }
  intros s' [name namespace] Hin [Htr Hs']. split.
  - eapply traced_trans; [done|apply traced_trace_publisher].
  - intros [?|[[types ?] Hexp]]%trace_publisher_added; [by apply Hs'|].
    right. exists data, name, namespace, types. split_and!; try done.
    by apply (expandable_frame g s s').
Qed.

Lemma trace_all_added g l s t :
  t ∈ topics_to_check_next_round (trace_all g l s).1 →
  t ∈ topics_to_check_next_round s
  ∨ ∃ stuck_topic data name namespace types,
      stuck_topic ∈ l
      ∧ dict_get stuck_topic (topic_data s) = Some data
      ∧ (name, namespace) ∈ publishers data
      ∧ (t, types) ∈ get_subscriber_names_and_types_by_node g name namespace
      ∧ expandable g s t.
Proof.
  revert s. induction l as [|t0 l IH]; intros s; [by left|]. cbn [trace_all].
  pose proof (traced_analyze_topic_connections g t0 s) as Htr.
  pose proof (analyze_topic_connections_added g t0 s t) as Hfirst.
  destruct (analyze_topic_connections g t0 s) as [s1 [e|]]; cbn [fst] in *.
  - intros [?|(data & name & namespace & types & ? & ? & ? & ?)]%Hfirst;
      [by left|].
    right. exists t0, data, name, namespace, types. split_and!; try done.
    apply elem_of_cons. by left.
  - intros [Hin|(t1 & data & name & namespace & types & ? & Hget & ? & ? & Hexp)]%IH.
    + apply Hfirst in Hin
        as [?|(data & name & namespace & types & ? & ? & ? & ?)]; [by left|].
      right. exists t0, data, name, namespace, types. split_and!; try done.
      apply elem_of_cons. by left.
    + right. exists t1, data, name, namespace, types.
      rewrite (tr_data _ _ _ Htr) in Hget.
      split_and!; try done; [apply elem_of_cons; by right|].
      by apply (expandable_frame g s s1).
Qed.

Lemma frontier_after_tracing g st t :
  t ∈ topics_to_check_next_round (after_tracing g st)
  ↔ t ∈ topics_to_check_next_round st ∨ discovered g st t.
Proof.
  destruct (classify_all_frame st) as (Hcl & _). split.
  - unfold after_tracing.
    intros [Hold|(s & data & name & namespace & types & ? & Hget & ? & ? & Hexp)]
      %trace_all_added.
    + left. by rewrite <- (cl_frontier _ _ Hcl).
    + right. exists s, data, name, namespace, types.
      unfold expandable in Hexp.
      rewrite (cl_ignore _ _ Hcl), (cl_data _ _ Hcl), (cl_checked _ _ Hcl) in Hexp.
      rewrite (cl_data _ _ Hcl) in Hget. by destruct Hexp as (? & ? & ? & ?).
  - intros [Hold|?]; [|by apply discovered_in_frontier].
    apply (traced_frontier g _ _ t (traced_after_tracing g st)).
    by rewrite (cl_frontier _ _ Hcl).
Qed.

(** X13. In a state reached from the initial one, the topics that
    [analyze_results] hands to the next round are exactly the discovered
    ones: not ignored, with at most two publishers, without observation, not
    in [checked_topics], and subscribed to by a publisher of a topic that
    this analysis classifies as stuck. *)
Theorem next_round_topics_are_the_discovered lib ops g :
  let st := run ops (init lib) in
  (∀ t, t ∈ topics_to_check_next_round (after_tracing g st) ↔ discovered g st t)
  ∧ ∀ st', analyze_results g st = (st', NextRound) →
           ∀ t, t ∈ important_topics st' ↔ discovered g st t.
Proof.
  intros st.
  assert (∀ t, t ∈ topics_to_check_next_round (after_tracing g st)
               ↔ discovered g st t) as Hfrontier.
  { intros t. rewrite frontier_after_tracing. subst st. rewrite frontier_run.
    split; [by intros [?%not_elem_of_empty|?]|by right]. }
  split; [done|]. intros st'. rewrite analyze_results_unfold.
  case_bool_decide; [|done]. intros [= <-] t. simpl.
  by rewrite elem_of_elements.
Qed.

Lemma checked_topics_analyze_results g st :
  checked_topics (analyze_results g st).1 = checked_topics st.
Proof.
  destruct (classify_all_frame st) as ([] & _).
  destruct (traced_after_tracing g st).
  rewrite analyze_results_unfold. case_bool_decide; simpl; congruence.
Qed.


(** ** How a round ends *)

Lemma finish_check_loop_error g topics st e :
  (finish_check_loop g topics st).2 = Some e →
  ∃ t, e = KeyError t ∧ t ∈ topics ∧ (t ∉ (topic_data st).*1).
Proof.
  revert st. induction topics as [|t0 topics IH]; intros st; [done|]. simpl.
  destruct (dict_get t0 (topic_data st)) as [data|] eqn:Hget.
  - intros (t & -> & ? & Hun)%IH. exists t. split_and!; [done| |].
    + apply elem_of_cons. by right.
    + rewrite keys_update in Hun; [done|]. apply dict_get_is_Some. eauto.
  - intros [= <-]. exists t0. split_and!; [done| |by apply dict_get_None].
    apply elem_of_cons. by left.
Qed.

Lemma finish_check_error g st e :
  (finish_check g st).2 = Some e →
  ∃ t, e = KeyError t ∧ t ∈ important_topics st ∧ (t ∉ (topic_data st).*1).
Proof.
  unfold finish_check.
  pose proof (finish_check_loop_error g (important_topics st) st e) as Hl.
  destruct (finish_check_loop g (important_topics st) st) as [st' [e'|]];
    [|done]. exact Hl.
Qed.

Lemma important_topics_deliver_all messages st :
  important_topics (deliver_all messages st).1 = important_topics st
  ∧ (topic_data (deliver_all messages st).1).*1 = (topic_data st).*1
  ∧ checked_topics st ⊆ checked_topics (deliver_all messages st).1.
Proof.
  revert st. induction messages as [|[t now] messages IH]; intros st; [done|].
  cbn [deliver_all].
  assert (important_topics (deliver st (t, now)).1 = important_topics st
          ∧ (topic_data (deliver st (t, now)).1).*1 = (topic_data st).*1) as [Hi Hk].
  { simpl. destruct (subscribed t st); [|done].
    rewrite keys_topic_callback. unfold topic_callback.
    by destruct (dict_get t (topic_data st)). }
  pose proof (ev_checked _ _ (evolves_deliver st (t, now))) as Hc.
  destruct (deliver st (t, now)) as [st' [e|]]; cbn [fst] in *; [done|].
  destruct (IH st') as (? & ? & ?). split_and!; [congruence..|set_solver].
Qed.

Lemma important_topics_finish_check g st :
  important_topics (finish_check g st).1 = important_topics st.
Proof.
  unfold finish_check.
  assert (∀ topics s, important_topics (finish_check_loop g topics s).1
                      = important_topics s) as Hloop.
  { induction topics as [|t topics IH]; intros s; [done|]. simpl.
    destruct (dict_get t (topic_data s)); [|done]. by rewrite IH. }
  specialize (Hloop (important_topics st) st).
  by destruct (finish_check_loop g (important_topics st) st) as [st' [e|]].
Qed.

Lemma check_topics_outcome nesting rounds st :
  Inv st →
  (∀ e, (check_topics nesting rounds st).2 = Raised e →
        e = TypeError ∨ e = RecursionError)
  ∧ (length rounds ≤ nesting →
     (check_topics nesting rounds st).2 ≠ Raised RecursionError)
  ∧ ∀ e, (check_topics nesting rounds st).2 = Blocked e →
      ∃ t, e = KeyError t
           ∧ t ∈ important_topics (check_topics nesting rounds st).1
           ∧ t ∈ checked_topics (check_topics nesting rounds st).1
           ∧ (t ∉ (topic_data (check_topics nesting rounds st).1).*1).
Proof.
  revert nesting st. induction rounds as [|r rest IH]; intros nesting st Hinv;
    [done|].
  cbn [check_topics].
  pose proof (check_topics_loop_raises (at_check r) (important_topics st)
                (set_check_completed false st)) as Hraise.
  destruct (check_topics_pass (at_check r) st) as [st0 [e0|]] eqn:H0.
  { unfold check_topics_pass in H0. rewrite H0 in Hraise.
    rewrite (Hraise e0 eq_refl). cbn [snd]. split_and!; [|done..].
    intros e [= <-]. by left. }
  clear Hraise. apply check_topics_pass_returns in H0 as ->.
  pose proof (Inv_check_topics_begin (at_check r) st Hinv) as Hinv0.
  pose proof (deliver_all_returns (arrivals r) _ Hinv0) as Hret.
  pose proof (Inv_deliver_all (arrivals r) _ Hinv0) as Hinv1.
  destruct (important_topics_deliver_all (arrivals r)
              (check_topics_begin (at_check r) st)) as (Himp1 & Hkeys1 & Hc1).
  destruct (deliver_all (arrivals r) (check_topics_begin (at_check r) st))
    as [st1 [e1|]]; [done|]. cbn [fst snd] in *.
  pose proof (finish_check_error (at_finish r) st1) as Herr.
  pose proof (Inv_finish_check (at_finish r) st1 Hinv1) as Hinv2.
  pose proof (important_topics_finish_check (at_finish r) st1) as Himp2.
  pose proof (keys_finish_check (at_finish r) st1) as Hkeys2.
  pose proof (ev_checked _ _ (evolves_finish_check (at_finish r) st1)) as Hc2.
  destruct (finish_check (at_finish r) st1) as [st2 [e2|]]; cbn [fst snd] in *.
  - split_and!; [done..|]. intros e [= <-].
    destruct (Herr e2 eq_refl) as (t & -> & Hin & Hun). exists t.
    split_and!; [done|congruence| |by rewrite Hkeys2].
    apply Hc2, Hc1, check_topics_begin_checked.
    destruct (important_topics_check_topics_begin (at_check r) st) as [<- _].
    by rewrite <- Himp1.
  - pose proof (Inv_analyze_results (at_analyze r) st2 Hinv2) as Hinv3.
    rewrite analyze_results_unfold in *.
    case_bool_decide; cbn [resume fst] in *; [|done].
    destruct nesting as [|nesting']; cbn [snd length].
    + split_and!; [|lia|done]. intros e [= <-]. by right.
    + destruct (IH nesting' _ Hinv3) as (? & Hdeep & ?).
      split_and!; [done| |done]. intros Hlen. apply Hdeep. lia.
Qed.

(** X15. Started in the initial state, [check_topics] is never left by a
    [KeyError], whatever the rounds bring and however deep they nest: the
    dictionary lookups of the tracer (lines 180 and 199) and of the message
    callbacks (lines 126 and 127) find their key.  The one [KeyError] is
    that of [finish_check], in the timer callback, on which [check_topics]
    hangs in [wait()]: it is for a topic of [important_topics] that is in
    [checked_topics] without an observation. *)
Theorem check_topics_raises_no_key_error lib nesting rounds :
  let result := check_topics nesting rounds (init lib) in
  (∀ t, result.2 ≠ Raised (KeyError t))
  ∧ ∀ e, result.2 = Blocked e →
      ∃ t, e = KeyError t
           ∧ t ∈ important_topics result.1
           ∧ t ∈ checked_topics result.1
           ∧ (t ∉ (topic_data result.1).*1).
Proof.
  intros result.
  destruct (check_topics_outcome nesting rounds (init lib) (Inv_init lib))
    as (Hraised & _ & Hblocked).
  split; [|done]. intros t Ht. by destruct (Hraised _ Ht).
Qed.

Lemma keys_check_topics_step_mono g st t0 t :
  t ∈ (topic_data st).*1 → t ∈ (topic_data (check_topics_step g st t0)).*1.
Proof.
  intros Ht. unfold check_topics_step. case_bool_decide; [|done].
  unfold check_topic. destruct (resolve_msg_class g t0); [done|]. simpl.
  apply elem_of_dict_set_keys. by right.
Qed.

Lemma check_topics_begin_tracks g st t :
  t ∈ important_topics st →
  t ∈ (topic_data st).*1
  ∨ ((t ∉ checked_topics st)
     ∧ ∃ msg_class, resolve_msg_class g t = inr msg_class) →
  t ∈ (topic_data (check_topics_begin g st)).*1.
Proof.
  intros Himp [Hold|[Hnew [msg_class Hres]]]; unfold check_topics_begin.
  - apply (fold_left_preserves (λ s, t ∈ (topic_data s).*1)); [done|].
    intros s t0 _. apply keys_check_topics_step_mono.
  - assert (t ∈ checked_topics (check_topics_begin g st)) as Hc
      by by apply check_topics_begin_checked.
    revert Hc. unfold check_topics_begin.
    apply (fold_left_preserves
             (λ s, t ∈ checked_topics s → t ∈ (topic_data s).*1)); [done|].
    intros s t0 _ Hs. unfold check_topics_step.
    case_bool_decide as Hfresh; [|done]. unfold check_topic.
    destruct (decide (t0 = t)) as [->|Hne].
    + rewrite Hres. simpl. intros _. apply elem_of_dict_set_keys. by left.
    + destruct (resolve_msg_class g t0); simpl;
        rewrite ?elem_of_dict_set_keys, elem_of_union, elem_of_singleton;
        naive_solver.
Qed.

(** X16. A round completes when its topics can be observed: if every topic
    of [important_topics] has an observation already, or is not in
    [checked_topics] and its type resolves in the graph, then after the
    subscribing pass and any messages [finish_check] raises nothing and sets
    [check_completed]. *)
Theorem round_completes lib ops g messages g' :
  let st := run ops (init lib) in
  (∀ t, t ∈ important_topics st →
        t ∈ (topic_data st).*1
        ∨ ((t ∉ checked_topics st)
           ∧ ∃ msg_class, resolve_msg_class g t = inr msg_class)) →
  let st1 := (deliver_all messages (check_topics_begin g st)).1 in
  (deliver_all messages (check_topics_begin g st)).2 = None
  ∧ (finish_check g' st1).2 = None
  ∧ check_completed (finish_check g' st1).1 = true.
Proof.
  intros st Hall st1.
  assert (Inv (check_topics_begin g st)) as Hinv
    by apply Inv_check_topics_begin, Inv_run, Inv_init.
  split; [by apply deliver_all_returns|].
  destruct (important_topics_deliver_all messages (check_topics_begin g st))
    as (Himp & Hkeys & _).
  destruct (important_topics_check_topics_begin g st) as [Himp0 _].
  destruct (finish_check_stores g' st1) as (? & ? & _); [|done].
  intros t. subst st1. rewrite Himp, Hkeys, Himp0. intros Ht.
  apply check_topics_begin_tracks; [done|]. by apply Hall.
Qed.

(** ** Ignored topics are never checked *)

Lemma checked_topics_check_topics_begin g st t :
  t ∈ checked_topics (check_topics_begin g st) →
  t ∈ checked_topics st ∨ t ∈ important_topics st.
Proof.
  unfold check_topics_begin.
  apply (fold_left_preserves
           (λ s, t ∈ checked_topics s →
                 t ∈ checked_topics st ∨ t ∈ important_topics st)); [by left|].
  intros s t0 Hin Hs. unfold check_topics_step. case_bool_decide; [|done].
  unfold check_topic.
  destruct (resolve_msg_class g t0); simpl;
    (intros [?|Heq%elem_of_singleton]%elem_of_union; [by apply Hs|by subst; right]).
Qed.

Lemma checked_topics_deliver st m :
  checked_topics (deliver st m).1 = checked_topics st
  ∧ important_topics (deliver st m).1 = important_topics st.
Proof.
  destruct m as [t now]. simpl. destruct (subscribed t st); [|done].
  unfold topic_callback. by destruct (dict_get t (topic_data st)).
Qed.

Lemma checked_topics_finish_check g st :
  checked_topics (finish_check g st).1 = checked_topics st.
Proof.
  unfold finish_check.
  assert (∀ topics s, checked_topics (finish_check_loop g topics s).1
                      = checked_topics s) as Hloop.
  { induction topics as [|t topics IH]; intros s; [done|]. simpl.
    destruct (dict_get t (topic_data s)); [|done]. by rewrite IH. }
  specialize (Hloop (important_topics st) st).
  by destruct (finish_check_loop g (important_topics st) st) as [st' [e|]].
Qed.

Lemma important_topics_after_tracing g st :
  important_topics (after_tracing g st) = important_topics st.
Proof.
  destruct (classify_all_frame st) as ([] & _).
  destruct (traced_after_tracing g st). congruence.
Qed.

Lemma unignored_run lib ops :
  let st := run ops (init lib) in
  (∀ t, t ∈ important_topics st → t ∉ ignore_topics st)
  ∧ (∀ t, t ∈ checked_topics st → t ∉ ignore_topics st)
  ∧ topics_to_check_next_round st = ∅.
Proof.
  apply (fold_left_preserves
           (λ s, (∀ t, t ∈ important_topics s → t ∉ ignore_topics s)
                 ∧ (∀ t, t ∈ checked_topics s → t ∉ ignore_topics s)
                 ∧ topics_to_check_next_round s = ∅)).
  { split_and!; [|by intros t ?%not_elem_of_empty|done].
    apply Forall_forall. by_evaluation. }
  intros s op _ (Himp & Hchecked & Hempty).
  pose proof (ev_ignore _ _ (evolves_exec s op)) as Hig.
  rewrite Hig. destruct op; cbn [exec].
  - destruct (important_topics_check_topics_begin g s) as [-> _].
    rewrite frontier_check_topics_begin. split_and!; [done| |done].
    intros t [?|?]%checked_topics_check_topics_begin; auto.
  - destruct (checked_topics_deliver s (topic, now)) as [-> ->].
    by rewrite (frontier_deliver s (topic, now)).
  - by rewrite important_topics_finish_check, checked_topics_finish_check,
      frontier_finish_check.
  - rewrite checked_topics_analyze_results, frontier_analyze_results.
    split_and!; [|done..]. rewrite analyze_results_unfold.
    case_bool_decide; simpl.
    + intros t. rewrite elem_of_elements, frontier_after_tracing, Hempty.
      intros [?%not_elem_of_empty|Hd]; [done|].
      by destruct Hd as (? & ? & ? & ? & ? & _ & _ & _ & _ & ? & _).
    + by rewrite important_topics_after_tracing.
Qed.

(** X17. In every state reached from the initial one, a topic of
    [ignore_topics] ([/rosout], [/parameter_events]) is not in
    [important_topics] nor in [checked_topics], has no observation, and the
    node has no subscription on it: the initial topics are not ignored ones
    and the tracer does not hand ignored topics on. *)
Theorem ignored_topics_are_never_checked lib ops t :
  let st := run ops (init lib) in
  t ∈ ignore_topics st →
  ignore_topics st = ignore_topics (init lib)
  ∧ (t ∉ important_topics st)
  ∧ (t ∉ checked_topics st)
  ∧ (t ∉ (topic_data st).*1)
  ∧ (t ∉ sub_topic <$> subscriptions st).
Proof.
  intros st Hi. assert (Inv st) as Hinv by apply Inv_run, Inv_init.
  destruct (unignored_run lib ops) as (Himp & Hchecked & _). fold st in Himp, Hchecked.
  assert (t ∉ (topic_data st).*1) as Hun.
  { intros ?%(inv_checked _ Hinv). by eapply Hchecked. }
  split_and!; [apply (ev_ignore _ _ (evolves_run ops (init lib)))| | |done|].
  - intros ?. by eapply Himp.
  - intros ?. by eapply Hchecked.
  - by rewrite <- (inv_subscribed _ Hinv).
Qed.

(** * Further scenarios, evaluated *)

Section more_scenarios.
Local Open Scope string_scope.
Import Scenario.

(** X7 on [g_b]: after the subscribing pass every important topic has an
    observation, and [finish_check] stores [N1] as the publisher of the
    topic it publishes. *)
Lemma finish_check_stores_publishers_witness :
  (∀ t, t ∈ important_topics (check_topics_begin g_b (init lib)) →
        t ∈ (topic_data (check_topics_begin g_b (init lib))).*1)
  ∧ (finish_check g_b (check_topics_begin g_b (init lib))).2 = None
  ∧ dict_get control_cmd
      (topic_data (finish_check g_b (check_topics_begin g_b (init lib))).1)
    = Some silent_once.
Proof.
  assert (∀ t, t ∈ important_topics (check_topics_begin g_b (init lib)) →
               t ∈ (topic_data (check_topics_begin g_b (init lib))).*1) as Hall.
  { apply Forall_forall. by_evaluation. }
  destruct (finish_check_stores_publishers g_b
              (check_topics_begin g_b (init lib)) Hall)
    as (Hok & _ & _ & Hstored & _).
  split_and!; [exact Hall|exact Hok|].
  apply (Hstored control_cmd fresh_topic_data); [by_evaluation|].
  vm_compute. reflexivity.
Defined.

(** X8 on [g_untyped]: the first important topic has no observation, and
    [finish_check] raises its [KeyError]. *)
Lemma finish_check_raises_at_first_untracked_witness :
  important_topics (check_topics_begin g_untyped (init lib))
  = ([] ++ control_cmd :: tail (important_topics (init lib)))%list
  ∧ (control_cmd ∉ (topic_data (check_topics_begin g_untyped (init lib))).*1)
  ∧ (finish_check g_untyped (check_topics_begin g_untyped (init lib))).2
    = Some (KeyError control_cmd).
Proof.
  assert (important_topics (check_topics_begin g_untyped (init lib))
          = ([] ++ control_cmd :: tail (important_topics (init lib)))%list) as Himp
    by (vm_compute; reflexivity).
  assert (control_cmd ∉ (topic_data (check_topics_begin g_untyped (init lib))).*1)
    as Hun by by_evaluation.
  destruct (finish_check_raises_at_first_untracked g_untyped
              (check_topics_begin g_untyped (init lib)) [] control_cmd
              (tail (important_topics (init lib))) Himp) as (Hraise & _);
    [intros t Ht; apply elem_of_nil in Ht; destruct Ht|exact Hun|].
  split; [exact Himp|]. split; [exact Hun|exact Hraise].
Defined.

(** X11 on a state in which the ignored topic [/rosout] has an observation
    with one publisher and no message: it is not reported. *)
Lemma ignored_topic_is_passed_over_witness :
  "/rosout" ∈ ignore_topics (set_topic_data [("/rosout", silent_once)] (init lib))
  ∧ ("/rosout"
       ∉ reported_topics
           (analyze_results g_b
              (set_topic_data [("/rosout", silent_once)] (init lib))).1).
Proof.
  assert ("/rosout"
            ∈ ignore_topics (set_topic_data [("/rosout", silent_once)] (init lib)))
    as Hi by by_evaluation.
  destruct (ignored_topic_is_passed_over g_b
              (set_topic_data [("/rosout", silent_once)] (init lib)) "/rosout" Hi)
    as (_ & Hrep & _).
  split; [exact Hi|]. intros Hin%Hrep. revert Hin. by_evaluation.
Defined.


(** X16 on [g_b]: every important topic has a type that imports, and the
    first round completes. *)
Lemma round_completes_witness :
  (∀ t, t ∈ important_topics (run [] (init lib)) →
        t ∈ (topic_data (run [] (init lib))).*1
        ∨ ((t ∉ checked_topics (run [] (init lib)))
           ∧ ∃ msg_class, resolve_msg_class g_b t = inr msg_class))
  ∧ check_completed
      (finish_check g_b
         (deliver_all [] (check_topics_begin g_b (run [] (init lib)))).1).1
    = true.
Proof.
  assert (∀ t, t ∈ important_topics (run [] (init lib)) →
               t ∈ (topic_data (run [] (init lib))).*1
               ∨ ((t ∉ checked_topics (run [] (init lib)))
                  ∧ ∃ msg_class, resolve_msg_class g_b t = inr msg_class))
    as Hall.
  { intros t Ht. right. split; [apply not_elem_of_empty|].
    simpl in Ht. exists String_class.
    repeat (apply elem_of_cons in Ht as [->|Ht]; [vm_compute; reflexivity|]).
    by apply elem_of_nil in Ht. }
  destruct (round_completes lib [] g_b [] g_b Hall) as (_ & _ & Hcompleted).
  split; [exact Hall|exact Hcompleted].
Defined.

(** X17 on [g_b]: after the first round and its analysis [/rosout] is
    neither checked nor subscribed to. *)
Lemma ignored_topics_are_never_checked_witness :
  "/rosout"
    ∈ ignore_topics
        (run [OpCheckTopics g_b; OpFinishCheck g_b; OpAnalyzeResults g_b]
             (init lib))
  ∧ ("/rosout"
       ∉ checked_topics
           (run [OpCheckTopics g_b; OpFinishCheck g_b; OpAnalyzeResults g_b]
                (init lib))).
Proof.
  assert ("/rosout"
            ∈ ignore_topics
                (run [OpCheckTopics g_b; OpFinishCheck g_b; OpAnalyzeResults g_b]
                     (init lib))) as Hi by by_evaluation.
  split; [exact Hi|].
  exact (proj1 (proj2 (proj2 (ignored_topics_are_never_checked lib
                  [OpCheckTopics g_b; OpFinishCheck g_b; OpAnalyzeResults g_b]
                  "/rosout" Hi)))).
Defined.

End more_scenarios.

(** * The callback, statement by statement *)

Lemma dict_set_set {V} k (v1 v2 : V) (d : dict V) :
  dict_set k v2 (dict_set k v1 d) = dict_set k v2 d.
Proof.
  induction d as [|[k0 v0] d IH]; simpl.
  { by rewrite String.eqb_refl. }
  destruct (String.eqb_spec k0 k) as [->|Hne]; simpl.
  - by rewrite String.eqb_refl.
  - destruct (String.eqb_spec k0 k); [done|]. by rewrite IH.
Qed.

Lemma elem_of_dict_set_NoDup {V} (k k' : string) (v v' : V) (d : dict V) :
  NoDup d.*1 → (k', v') ∈ dict_set k v d →
  (k' = k ∧ v' = v) ∨ (k' ≠ k ∧ (k', v') ∈ d).
Proof.
  intros Hnd Hin.
  apply (elem_dict_get _ _ _ (dict_set_NoDup k v d Hnd)) in Hin.
  rewrite dict_get_set in Hin. case_decide.
  - left. split; congruence.
  - right. split; [done|]. by apply dict_get_Some_elem.
Qed.

(** The callback is its two statements, one after the other. *)
Lemma topic_callback_lines topic now st :
  topic_callback topic now st
  = match topic_callback_received topic st with
    | (st1, None) => topic_callback_last_received topic now st1
    | (st1, Some e) => (st1, Some e)
    end.
Proof.
  unfold topic_callback, topic_callback_received, topic_callback_last_received.
  destruct (dict_get topic (topic_data st)) as [data|]; [|done]. simpl.
  by rewrite dict_get_set_eq, dict_set_set.
Qed.

Lemma Core_check_topics_step g st t : Core st → Core (check_topics_step g st t).
Proof.
  intros [Hnd Hc]. unfold check_topics_step. case_bool_decide; [|done].
  unfold check_topic. destruct (resolve_msg_class g t); split; simpl; try done.
  - intros t' ?%Hc. set_solver.
  - by apply dict_set_NoDup.
  - intros t'. rewrite elem_of_dict_set_keys, elem_of_union, elem_of_singleton.
    intros [?|?%Hc]; auto.
Qed.

Lemma Core_exec st op : Core st → Core (exec st op).
Proof.
  intros Hcore. destruct op; cbn [exec].
  - unfold check_topics_begin. apply (fold_left_preserves Core); [done|].
    intros s t _. apply Core_check_topics_step.
  - unfold Core. destruct (checked_topics_deliver st (topic, now)) as [-> _].
    cbn [deliver]. destruct (subscribed topic st); [|done].
    by rewrite keys_topic_callback.
  - unfold Core. by rewrite keys_finish_check, checked_topics_finish_check.
  - unfold Core. by rewrite topic_data_analyze_results, checked_topics_analyze_results.
Qed.

Lemma persists_check_topics_begin_core g st :
  Core st → persists st (check_topics_begin g st).
Proof.
  intros Hcore. unfold check_topics_begin.
  apply (fold_left_preserves (λ s, Core s ∧ persists st s)).
  { split; [done|by apply persists_same]. }
  intros s t0 _ [Hs Hp]. split; [by apply Core_check_topics_step|].
  eapply persists_trans; [done|]. unfold check_topics_step.
  case_bool_decide as Hnew; [|apply persists_refl].
  unfold check_topic. destruct (resolve_msg_class g t0); [by apply persists_same|].
  intros t d Hd. simpl. exists d. split; [|done].
  rewrite dict_get_set_ne; [done|]. intros <-. apply Hnew.
  apply (proj2 Hs), dict_get_is_Some. eauto.
Qed.

Lemma persists_exec_core st op : Core st → persists st (exec st op).
Proof.
  intros Hcore. destruct op; cbn [exec].
  - by apply persists_check_topics_begin_core.
  - apply (persists_deliver st (topic, now)).
  - apply persists_finish_check.
  - apply persists_same, topic_data_analyze_results.
Qed.

Lemma consistent_received data :
  consistent data → is_Some (last_received data) → received data = true.
Proof. intros [_ H]. exact H. Qed.

Lemma observations_check_topics_begin lock g st :
  observations_ok lock st → observations_ok lock (check_topics_begin g st).
Proof.
  intros Hobs. unfold check_topics_begin.
  apply (fold_left_preserves (observations_ok lock)); [done|].
  intros s t0 _ Hs. unfold check_topics_step. case_bool_decide; [|done].
  unfold check_topic. destruct (resolve_msg_class g t0); [done|].
  intros t d [[= -> ->]|?]%elem_of_dict_set; [|by apply Hs].
  split; [by intros [? ?]|]. intros _. apply consistent_fresh.
Qed.

Lemma observations_deliver st m :
  observations_ok None st → observations_ok None (deliver st m).1.
Proof.
  intros Hobs. destruct m as [t0 now]. cbn [deliver].
  destruct (subscribed t0 st); [|done]. unfold topic_callback.
  destruct (dict_get t0 (topic_data st)) as [data|]; [|done].
  intros t d [[= -> ->]|?]%elem_of_dict_set; [|by apply Hobs].
  split; [done|]. intros _. split; eauto.
Qed.

Lemma observations_finish_check g st :
  observations_ok None st → observations_ok None (finish_check g st).1.
Proof.
  intros Hobs. unfold finish_check.
  assert (∀ topics s, observations_ok None s →
            observations_ok None (finish_check_loop g topics s).1) as Hloop.
  { induction topics as [|t0 topics IH]; intros s Hs; [done|]. simpl.
    destruct (dict_get t0 (topic_data s)) as [data|] eqn:Hget; [|done].
    apply IH. apply dict_get_Some_elem in Hget.
    intros t d [[= -> ->]|?]%elem_of_dict_set; [|by apply Hs].
    exact (Hs _ _ Hget). }
  specialize (Hloop (important_topics st) st Hobs).
  by destruct (finish_check_loop g (important_topics st) st) as [st' [e|]].
Qed.

Lemma observations_exec st op :
  observations_ok None st → observations_ok None (exec st op).
Proof.
  intros Hobs. destruct op; cbn [exec].
  - by apply observations_check_topics_begin.
  - by apply (observations_deliver st (topic, now)).
  - by apply observations_finish_check.
  - unfold observations_ok. by rewrite topic_data_analyze_results.
Qed.

Lemma holder_persists lock st st' :
  persists st st' → holder_ok lock st → holder_ok lock st'.
Proof.
  intros Hp Hh t Ht. destruct (Hh t Ht) as (d & Hd & Hr).
  destruct (Hp t d Hd) as (d' & ? & ? & _). exists d'. auto.
Qed.

Lemma ThreadsInv_start lib : ThreadsInv (start lib).
Proof.
  split; simpl.
  - split; [apply NoDup_nil_2|]. by intros t ?%elem_of_nil.
  - by intros t d ?%elem_of_nil.
  - by intros t.
Qed.

Lemma ThreadsInv_step th s : ThreadsInv th → ThreadsInv (step th s).
Proof.
  intros [Hcore Hobs Hholder]. destruct th as [st lk]. cbn [node lock] in *.
  destruct s as [op|t0|now]; cbn [step node lock].
  - assert (ThreadsInv {| node := exec st op; lock := lk |}
            → lk = None
            → ThreadsInv (match lk with
                          | None => {| node := exec st op; lock := None |}
                          | Some _ => {| node := st; lock := lk |}
                          end)) as Hlocked.
    { intros ? ->. done. }
    destruct op as [g|t now|g|g].
    + split; cbn [node lock].
      * by apply (Core_exec st (OpCheckTopics g)).
      * by apply observations_check_topics_begin.
      * eapply holder_persists; [|done]. by apply persists_check_topics_begin_core.
    + destruct lk; [by split|]. split; cbn [node lock].
      * by apply Core_exec.
      * by apply observations_exec.
      * by intros ?.
    + destruct lk; [by split|]. split; cbn [node lock].
      * by apply Core_exec.
      * by apply observations_exec.
      * by intros ?.
    + split; cbn [node lock].
      * by apply (Core_exec st (OpAnalyzeResults g)).
      * unfold observations_ok. by rewrite topic_data_analyze_results.
      * unfold holder_ok. by rewrite topic_data_analyze_results.
  - destruct lk as [held|]; [by split|].
    destruct (subscribed t0 st); [|by split].
    unfold topic_callback_received.
    destruct (dict_get t0 (topic_data st)) as [data|] eqn:Hget; [|by split].
    split; cbn [node lock].
    + destruct Hcore as [Hnd Hc]. split; simpl.
      * by apply dict_set_NoDup.
      * intros t. rewrite dict_set_keys, decide_True; [apply Hc|].
        apply dict_get_is_Some. eauto.
    + simpl. intros t d [[= -> ->]|Hold]%elem_of_dict_set.
      * apply dict_get_Some_elem in Hget. split; [done|]. by intros [].
      * destruct (Hobs t d Hold) as [? Hcons]. split; [done|].
        intros _. by apply Hcons.
    + intros t [= <-]. simpl. rewrite dict_get_set_eq. eauto.
  - destruct lk as [held|]; [|by split].
    destruct (Hholder held eq_refl) as (data & Hget & Hreceived).
    unfold topic_callback_last_received. rewrite Hget.
    split; cbn [fst node lock].
    + destruct Hcore as [Hnd Hc]. split; simpl.
      * by apply dict_set_NoDup.
      * intros t. rewrite dict_set_keys, decide_True; [apply Hc|].
        apply dict_get_is_Some. eauto.
    + simpl. intros t d Hin.
      apply (elem_of_dict_set_NoDup _ _ _ _ _ (proj1 Hcore)) in Hin
        as [[-> ->]|[Hne Hold]].
      * split; [done|]. intros _. split; [eauto|done].
      * destruct (Hobs t d Hold) as [? Hcons]. split; [done|].
        intros _. apply Hcons. congruence.
    + by intros t.
Qed.

Lemma ThreadsInv_steps lib l : ThreadsInv (steps l (start lib)).
Proof.
  apply (fold_left_preserves ThreadsInv); [apply ThreadsInv_start|].
  intros th s _. apply ThreadsInv_step.
Qed.

Lemma persists_step th s :
  ThreadsInv th → persists (node th) (node (step th s)).
Proof.
  intros [Hcore Hobs Hholder]. destruct th as [st lk]. cbn [node lock] in *.
  destruct s as [op|t0|now]; cbn [step].
  - destruct op as [g|t now|g|g]; cbn [node].
    + by apply persists_check_topics_begin_core.
    + destruct lk; cbn [node]; [apply persists_refl|by apply persists_exec_core].
    + destruct lk; cbn [node]; [apply persists_refl|by apply persists_exec_core].
    + apply persists_same, topic_data_analyze_results.
  - destruct lk; cbn [node]; [apply persists_refl|].
    destruct (subscribed t0 st); [|apply persists_refl].
    unfold topic_callback_received.
    destruct (dict_get t0 (topic_data st)) as [data|] eqn:Hget;
      [|apply persists_refl].
    cbn [node]. by eapply persists_update.
  - destruct lk as [held|]; cbn [node lock]; [|apply persists_refl].
    unfold topic_callback_last_received.
    destruct (dict_get held (topic_data st)) as [data|] eqn:Hget;
      cbn [fst]; [|apply persists_refl].
    eapply persists_update; [done|done|]. eauto.
Qed.

Lemma unexpected_analyze_results g st t :
  WarnUnexpected t ∈ logged (analyze_results g st).1
  ↔ WarnUnexpected t ∈ logged st
    ∨ ∃ data, (t, data) ∈ topic_data st
              ∧ received data = true ∧ last_received data = None.
Proof.
  rewrite <- (classify_fold_unexpected t (topic_data st) [] st).
  fold (classify_all st). rewrite <- (unexpected_after_tracing g).
  rewrite analyze_results_unfold. case_bool_decide; [|done]. simpl.
  rewrite elem_of_app, list_elem_of_singleton. naive_solver.
Qed.

(** C10, as the code has it.  However the callback's two statements, the
    operations of the orchestration thread and the timer callback
    interleave: an observation with a time of reception has [received]
    true, and [received] is true exactly when [last_received] is not [None]
    for every topic but the one whose callback is between its statements;
    [check_topic] creates the observation with false and [None]; the
    callback writes [received], then [last_received]; no step takes either
    back, and no later [check_topics] initialises an observation again.
    [analyze_results] takes no lock: it writes a new unexpected-state
    warning for a topic only when it runs while the callback of that topic
    is between its statements with no earlier time of reception. *)
Theorem received_before_last_received lib l :
  let th := steps l (start lib) in
  let st := node th in
  (∀ t data, (t, data) ∈ topic_data st →
     last_received data ≠ None → received data = true)
  ∧ (∀ t data, (t, data) ∈ topic_data st → lock th ≠ Some t →
       (received data = true ↔ last_received data ≠ None))
  ∧ (∀ g t msg_class, resolve_msg_class g t = inr msg_class →
       ∃ data, dict_get t (topic_data (check_topic g t st)) = Some data
               ∧ received data = false ∧ last_received data = None)
  ∧ (∀ t now data, dict_get t (topic_data st) = Some data →
       ∃ st1, topic_callback_received t st = (st1, None)
              ∧ dict_get t (topic_data st1)
                = Some {| received := true; publishers := publishers data;
                          last_received := last_received data |}
              ∧ topic_callback_last_received t now st1
                = topic_callback t now st
              ∧ dict_get t (topic_data (topic_callback t now st).1)
                = Some {| received := true; publishers := publishers data;
                          last_received := Some now |})
  ∧ (∀ s t data, dict_get t (topic_data st) = Some data →
       ∃ data', dict_get t (topic_data (node (step th s))) = Some data'
                ∧ (received data = true → received data' = true)
                ∧ (last_received data ≠ None → last_received data' ≠ None))
  ∧ (∀ g t, WarnUnexpected t ∈ logged (analyze_results g st).1 →
            WarnUnexpected t ∈ logged st
            ∨ (lock th = Some t
               ∧ ∃ data, dict_get t (topic_data st) = Some data
                         ∧ received data = true
                         ∧ last_received data = None)).
Proof.
  intros th st. pose proof (ThreadsInv_steps lib l) as Hinv. fold th in Hinv.
  pose proof Hinv as [Hcore Hobs Hholder]. fold st in Hcore, Hobs, Hholder.
  split_and!.
  - intros t data Hin Hlast. destruct (Hobs t data Hin) as [Hreceived _].
    apply Hreceived. by apply not_eq_None_Some.
  - intros t data Hin Hfree. rewrite not_eq_None_Some.
    destruct (Hobs t data Hin) as [_ Hcons]. exact (Hcons Hfree).
  - intros g t msg_class Hres. exists fresh_topic_data.
    unfold check_topic. rewrite Hres. simpl. by rewrite dict_get_set_eq.
  - intros t now data Hget.
    assert (topic_callback t now st
            = (set_topic_data
                 (dict_set t {| received := true; publishers := publishers data;
                                last_received := Some now |} (topic_data st))
                 st, None)) as Hboth.
    { unfold topic_callback. by rewrite Hget. }
    pose proof (topic_callback_lines t now st) as Hlines.
    unfold topic_callback_received in *. rewrite Hget in *.
    eexists. split; [done|]. split_and!.
    + simpl. apply dict_get_set_eq.
    + by rewrite Hlines.
    + rewrite Hboth. simpl. apply dict_get_set_eq.
  - intros s t data Hget.
    destruct (persists_step th s Hinv t data Hget) as (data' & ? & ? & ?).
    exists data'. by rewrite !not_eq_None_Some.
  - intros g t. rewrite unexpected_analyze_results.
    intros [?|(data & Hin & Hr & Hl)]; [by left|]. right.
    destruct (decide (lock th = Some t)) as [Hheld|Hfree].
    + split; [done|]. exists data. split; [|done].
      by apply (elem_dict_get _ _ _ (proj1 Hcore)).
    + destruct (Hobs t data Hin) as [_ Hcons].
      apply Hcons in Hfree as [Hsome _]. apply Hsome in Hr as [? ?]. congruence.
Qed.

(** * The [TypeError] of a relative module name *)

Lemma check_topics_loop_safe g topics st :
  (∀ t, t ∈ topics → check_topic_raises g t = None) →
  check_topics_loop g topics st = (fold_left (check_topics_step g) topics st, None).
Proof.
  revert st. induction topics as [|t topics IH]; intros st Hsafe; [done|].
  cbn [check_topics_loop fold_left]. unfold check_topics_step at 2.
  assert (∀ t', t' ∈ topics → check_topic_raises g t' = None) as Hrest.
  { intros t' Ht'. apply Hsafe, elem_of_cons. by right. }
  case_bool_decide; [|by apply IH].
  rewrite (Hsafe t) by (apply elem_of_cons; by left). by apply IH.
Qed.

Lemma check_topics_loop_app g before after st :
  check_topics_loop g (before ++ after) st
  = match check_topics_loop g before st with
    | (st', None) => check_topics_loop g after st'
    | (st', Some e) => (st', Some e)
    end.
Proof.
  revert st. induction before as [|t before IH]; intros st; [done|].
  cbn [app check_topics_loop]. case_bool_decide; [|apply IH].
  destruct (check_topic_raises g t); [done|apply IH].
Qed.

Lemma check_topics_fold_untouched g topics st t :
  t ∉ topics →
  (t ∉ checked_topics st →
   t ∉ checked_topics (fold_left (check_topics_step g) topics st))
  ∧ (t ∉ (topic_data st).*1 →
     t ∉ (topic_data (fold_left (check_topics_step g) topics st)).*1).
Proof.
  revert st. induction topics as [|t0 topics IH]; intros st Hout; [done|].
  apply not_elem_of_cons in Hout as [Hne Hout]. cbn [fold_left].
  destruct (IH (check_topics_step g st t0) Hout) as [IHc IHk].
  split; intros Hnew; [apply IHc|apply IHk]; unfold check_topics_step;
    (case_bool_decide; [|exact Hnew]); unfold check_topic;
    destruct (resolve_msg_class g t0); simpl.
  - intros [?|?%elem_of_singleton]%elem_of_union; done.
  - intros [?|?%elem_of_singleton]%elem_of_union; done.
  - exact Hnew.
  - intros [?|?]%elem_of_dict_set_keys; done.
Qed.

(** X18. A message type in three parts whose package name is empty or
    starts with a dot makes [importlib.import_module] raise a [TypeError],
    which the [except] clause of [check_topic] does not catch.  When the
    first such topic of [important_topics] is not in [checked_topics], the
    [TypeError] leaves [check_topics] from its subscribing loop: the topics
    before it are handled as usual, the topic is neither added to
    [checked_topics] nor given an observation, the topics after it are not
    looked at, no timer is armed and no analysis follows. *)
Theorem check_topics_raises_type_error g st before t after :
  important_topics st = before ++ t :: after →
  (∀ t', t' ∈ before → check_topic_raises g t' = None) →
  t ∉ before →
  t ∉ checked_topics st →
  check_topic_raises g t = Some TypeError →
  let st' := fold_left (check_topics_step g) before (set_check_completed false st) in
  check_topics_pass g st = (st', Some TypeError)
  ∧ (∀ t', t' ∉ before → t' ∉ checked_topics st → t' ∉ checked_topics st')
  ∧ (∀ t', t' ∉ before → t' ∉ (topic_data st).*1 → t' ∉ (topic_data st').*1)
  ∧ (t ∉ checked_topics st')
  ∧ ∀ nesting r rest,
      at_check r = g → check_topics nesting (r :: rest) st = (st', Raised TypeError).
Proof.
  intros Himp Hsafe Hout Hnew Hraises st'.
  assert (∀ t', t' ∉ before → t' ∉ checked_topics st → t' ∉ checked_topics st')
    as Hchecked.
  { intros t' Ht' Hc.
    by apply (check_topics_fold_untouched g before (set_check_completed false st) t'). }
  assert (check_topics_pass g st = (st', Some TypeError)) as Hpass.
  { unfold check_topics_pass. rewrite Himp, check_topics_loop_app.
    rewrite (check_topics_loop_safe g before _ Hsafe). fold st'.
    cbn [check_topics_loop]. rewrite bool_decide_eq_true_2 by by apply Hchecked.
    by rewrite Hraises. }
  split_and!; [done|done| |by apply Hchecked|].
  - intros t' Ht' Hk.
    by apply (check_topics_fold_untouched g before (set_check_completed false st) t').
  - intros nesting r rest <-. cbn [check_topics]. by rewrite Hpass.
Qed.

(** The message types that raise it. *)
Lemma check_topic_raises_iff g topic e :
  check_topic_raises g topic = Some e
  ↔ e = TypeError
    ∧ ∃ msg_type package_name middle name,
        get_topic_type g topic = Some msg_type
        ∧ split_slash msg_type = [package_name; middle; name]
        ∧ relative_module package_name = true.
Proof.
  unfold check_topic_raises. split.
  - destruct (get_topic_type g topic) as [ty|]; [|done].
    case_bool_decide; [done|].
    destruct (split_slash ty) as [|a [|b [|c [|d l]]]] eqn:Hsplit; try done.
    destruct (relative_module a) eqn:Hrel; [|done].
    intros [= <-]. split; [done|]. by exists ty, a, b, c.
  - intros (-> & ty & a & b & c & -> & Hsplit & Hrel).
    case_bool_decide as Hempty; [by subst|]. by rewrite Hsplit, Hrel.
Qed.

Section callback_scenarios.
Local Open Scope string_scope.
Import Scenario.

(** C10 as stated fails on [g_b]: the callback of [control_cmd] has written
    [received] (line 126) and not yet [last_received] (line 127) when
    [analyze_results], which takes no lock, runs.  The observation has
    [received] true with [last_received] [None], and the unexpected-state
    warning is logged; line 127 then makes the observation consistent
    again. *)
Lemma analysis_between_callback_statements :
  let th := steps [StepOp (OpCheckTopics g_b); StepOp (OpFinishCheck g_b);
                   StepReceived control_cmd] (start lib) in
  lock th = Some control_cmd
  ∧ dict_get control_cmd (topic_data (node th))
    = Some {| received := true; publishers := [("N1", "/")];
              last_received := None |}
  ∧ (WarnUnexpected control_cmd ∉ logged (node th))
  ∧ WarnUnexpected control_cmd
      ∈ logged (node (step th (StepOp (OpAnalyzeResults g_b))))
  ∧ dict_get control_cmd
      (topic_data (node (steps [StepOp (OpAnalyzeResults g_b); StepLastReceived 5%Z]
                           th)))
    = Some {| received := true; publishers := [("N1", "/")];
              last_received := Some 5%Z |}.
Proof.
  cbn zeta. split_and!; try by_evaluation; vm_compute; reflexivity.
Qed.

(** X18 on [g_relative]: the type [/msg/String] of the first important
    topic ends [check_topics] at once. *)
Lemma check_topics_raises_type_error_witness :
  check_topic_raises g_relative control_cmd = Some TypeError
  ∧ check_topics 1 [quiet g_relative] (init lib)
    = (set_check_completed false (init lib), Raised TypeError)
  ∧ (control_cmd ∉ checked_topics (check_topics 1 [quiet g_relative] (init lib)).1).
Proof.
  assert (check_topic_raises g_relative control_cmd = Some TypeError) as Hraises
    by (vm_compute; reflexivity).
  assert (important_topics (init lib)
          = [] ++ control_cmd :: tail (important_topics (init lib)))%list as Himp
    by reflexivity.
  assert (∀ t', t' ∈ [] → check_topic_raises g_relative t' = None) as Hsafe.
  { intros t' Ht'. destruct (not_elem_of_nil _ Ht'). }
  assert (control_cmd ∉ []) as Hout by apply not_elem_of_nil.
  assert (control_cmd ∉ checked_topics (init lib)) as Hnew by apply not_elem_of_empty.
  destruct (check_topics_raises_type_error g_relative (init lib) [] control_cmd
              (tail (important_topics (init lib))) Himp Hsafe Hout Hnew Hraises)
    as (_ & _ & _ & Hchecked & Hdriver).
  pose proof (Hdriver 1%nat (quiet g_relative) [] eq_refl) as Hrun.
  split; [exact Hraises|]. split; [exact Hrun|].
  rewrite Hrun. exact Hchecked.
Defined.

End callback_scenarios.
